(** * Easy3D key-frame interpolator: a shallow embedding and its properties

    The development follows [easy3d/renderer/key_frame_interpolator.cpp].
    The C++ [float] is the IEEE-754 binary32 format; it is modelled by the
    Standard Library's executable specification of floating-point
    arithmetic ([SpecFloat]) at precision 24 and maximal exponent 128, so
    that not-a-number, infinities, signed zeros and rounding behave as they
    do in the program.  The member variables of the C++ class become the
    fields of a record that every member function takes and returns. *)

From Stdlib Require Import ZArith List Bool Lia.
From Stdlib Require String.
Import String.StringSyntax.
From Stdlib Require Import Floats.SpecFloat.
Import ListNotations.
Local Open Scope string_scope.
Local Open Scope list_scope.
Local Open Scope Z_scope.

(* ================================================================== *)
(** ** Scalars: the C++ [float] *)

Module F32.

Definition prec : Z := 24.
Definition emax : Z := 128.

Definition float : Type := spec_float.

(** Conversion of an integer (an [int] operand, or an integer literal
    such as [1000.0f]) to [float], rounding to nearest even. *)
Definition of_Z (n : Z) : float := binary_normalize prec emax n 0 false.

Definition zero : float := S754_zero false.
Definition one : float := of_Z 1.

Definition add : float -> float -> float := SFadd prec emax.
Definition sub : float -> float -> float := SFsub prec emax.
Definition mul : float -> float -> float := SFmul prec emax.
Definition div : float -> float -> float := SFdiv prec emax.
Definition sqrt : float -> float := SFsqrt prec emax.
Definition opp : float -> float := SFopp.
Definition abs : float -> float := SFabs.

(** The comparisons of C++: every comparison with a NaN is false. *)
Definition ltb : float -> float -> bool := SFltb.
Definition leb : float -> float -> bool := SFleb.
Definition eqb : float -> float -> bool := SFeqb.
Definition gtb (x y : float) : bool := ltb y x.
Definition geb (x y : float) : bool := leb y x.

Definition is_nan (x : float) : bool :=
  match x with S754_nan => true | _ => false end.

Definition is_zero (x : float) : bool :=
  match x with S754_zero _ => true | _ => false end.

(** Neither a NaN nor an infinity. *)
Definition is_finite (x : float) : bool :=
  match x with S754_zero _ | S754_finite _ _ _ => true | _ => false end.

Definition infinity : float := S754_infinity false.
Definition neg_infinity : float := S754_infinity true.
Definition nan : float := S754_nan.

End F32.

(* ================================================================== *)
(** ** Vectors, quaternions and frames

    The vector and quaternion classes ([easy3d/core/vec.h], [quat.h]) and
    [Frame] are not among the sources.  Their componentwise operations are
    written out below; the operations whose definition cannot be read off
    their name ([normalize], [squad], [squad_tangent]) are left as
    parameters, see [MathLib]. *)

Record vec3 : Type := mkVec3 { vx : F32.float; vy : F32.float; vz : F32.float }.

Record quat : Type := mkQuat { qx : F32.float; qy : F32.float; qz : F32.float; qw : F32.float }.

Record Frame : Type := mkFrame { position : vec3; orientation : quat }.

(** Modelled from the spec: a default-constructed [vec3] (all zero) and
    [quat] (the identity rotation), of [vec.h] and [quat.h]. *)
Definition vec3_default : vec3 := mkVec3 F32.zero F32.zero F32.zero.
Definition quat_default : quat := mkQuat F32.zero F32.zero F32.zero F32.one.
Definition Frame_default : Frame := mkFrame vec3_default quat_default.

(** Modelled from the spec: the componentwise vector operations of
    [vec.h]: [a + b], [a - b], [s * a]. *)
Definition vadd (a b : vec3) : vec3 :=
  mkVec3 (F32.add (vx a) (vx b)) (F32.add (vy a) (vy b)) (F32.add (vz a) (vz b)).
Definition vsub (a b : vec3) : vec3 :=
  mkVec3 (F32.sub (vx a) (vx b)) (F32.sub (vy a) (vy b)) (F32.sub (vz a) (vz b)).
Definition vscale (s : F32.float) (a : vec3) : vec3 :=
  mkVec3 (F32.mul s (vx a)) (F32.mul s (vy a)) (F32.mul s (vz a)).

(** Modelled from the spec: [distance2] and [distance] of [vec.h], the
    squared and the plain chord distance between two points. *)
Definition distance2 (a b : vec3) : F32.float :=
  let d := vsub a b in
  F32.add (F32.add (F32.mul (vx d) (vx d)) (F32.mul (vy d) (vy d)))
          (F32.mul (vz d) (vz d)).
Definition distance (a b : vec3) : F32.float := F32.sqrt (distance2 a b).

(** Modelled from the spec: [quat::dot] and [quat::negate] of [quat.h];
    q and -q represent the same rotation. *)
Definition quat_dot (a b : quat) : F32.float :=
  F32.add (F32.add (F32.add (F32.mul (qx a) (qx b)) (F32.mul (qy a) (qy b)))
                   (F32.mul (qz a) (qz b)))
          (F32.mul (qw a) (qw b)).
Definition quat_negate (q : quat) : quat :=
  mkQuat (F32.opp (qx q)) (F32.opp (qy q)) (F32.opp (qz q)) (F32.opp (qw q)).

Definition vec3_is_finite (a : vec3) : bool :=
  F32.is_finite (vx a) && F32.is_finite (vy a) && F32.is_finite (vz a).

(** Equality of two vectors as C++ compares floats ([==] on every
    component: the two zeros are equal, a NaN equals nothing). *)
Definition vec3_eqb (a b : vec3) : bool :=
  F32.eqb (vx a) (vx b) && F32.eqb (vy a) (vy b) && F32.eqb (vz a) (vz b).

(** The library operations taken as parameters. *)
Class MathLib : Type := {
  normalize : vec3 -> vec3;
  squad : quat -> quat -> quat -> quat -> F32.float -> quat;
  squad_tangent : quat -> quat -> quat -> quat
}.

(** Modelled from the spec: [epsilon<float>()] of [easy3d/core/constant.h],
    "a small epsilon"; one millionth. *)
Definition epsilon : F32.float := F32.div (F32.of_Z 1) (F32.of_Z 1000000).

(* ================================================================== *)
(** ** Key frames *)

Record KeyFrame : Type := mkKeyFrame {
  p_ : vec3;
  q_ : quat;
  time_ : F32.float;
  tgP_ : vec3;
  tgQ_ : quat
}.

(** [KeyFrame::KeyFrame(const Frame &fr, float t)]; the tangents are
    default-constructed. *)
Definition new_KeyFrame (fr : Frame) (t : F32.float) : KeyFrame :=
  mkKeyFrame (position fr) (orientation fr) t vec3_default quat_default.

Definition set_time (t : F32.float) (kf : KeyFrame) : KeyFrame :=
  mkKeyFrame (p_ kf) (q_ kf) t (tgP_ kf) (tgQ_ kf).

(** [KeyFrame::flipOrientationIfNeeded]. *)
Definition flipOrientationIfNeeded (prev : quat) (kf : KeyFrame) : KeyFrame :=
  if F32.ltb (quat_dot prev (q_ kf)) F32.zero
  then mkKeyFrame (p_ kf) (quat_negate (q_ kf)) (time_ kf) (tgP_ kf) (tgQ_ kf)
  else kf.

Definition KeyFrame_default : KeyFrame := new_KeyFrame Frame_default F32.zero.

(* ================================================================== *)
(** ** The interpolator object *)

(** Modelled from the spec: the timer ([easy3d/util/timer.h]) is not among
    the sources.  [stop()] raises the stop flag that the playback loop
    polls; [set_timeout(0, f)] lowers it and hands [f] over for execution
    on another thread.  [launched_] counts the callbacks handed over. *)
Record Timer : Type := mkTimer { stopped_ : bool; launched_ : nat }.

Definition Timer_stop (t : Timer) : Timer := mkTimer true (launched_ t).
Definition Timer_set_timeout (t : Timer) : Timer := mkTimer false (S (launched_ t)).
Definition Timer_is_stopped (t : Timer) : bool := stopped_ t.

(** What the object does to the outside: log lines, writes to the frame it
    drives, and the two signals. *)
Inductive Event : Type :=
| LogError (msg : String.string)
| LogInfoInterpolating (num_keyframes : nat)
| LogInfoDone (num_frames : nat)
| SetPositionAndOrientation (f : Frame)
| FrameInterpolated
| InterpolationStopped.

Record KeyFrameInterpolator : Type := mkKFI {
  fps_ : Z;
  interpolation_speed_ : F32.float;
  interpolation_started_ : bool;
  last_stopped_index_ : Z;
  pathIsValid_ : bool;
  keyframes_ : list KeyFrame;
  interpolated_path_ : list Frame;
  path_drawable_ : option (list vec3);
  cameras_drawable_ : option (list vec3);
  timer_ : Timer;
  events_ : list Event
}.

(** [KeyFrameInterpolator::KeyFrameInterpolator]. *)
Definition KeyFrameInterpolator_new : KeyFrameInterpolator :=
  mkKFI 30 F32.one false 0 false [] [] None None (mkTimer false 0) [].

Definition with_started (b : bool) (s : KeyFrameInterpolator) :=
  mkKFI (fps_ s) (interpolation_speed_ s) b (last_stopped_index_ s)
        (pathIsValid_ s) (keyframes_ s) (interpolated_path_ s)
        (path_drawable_ s) (cameras_drawable_ s) (timer_ s) (events_ s).
Definition with_last_stopped_index (i : Z) (s : KeyFrameInterpolator) :=
  mkKFI (fps_ s) (interpolation_speed_ s) (interpolation_started_ s) i
        (pathIsValid_ s) (keyframes_ s) (interpolated_path_ s)
        (path_drawable_ s) (cameras_drawable_ s) (timer_ s) (events_ s).
Definition with_pathIsValid (b : bool) (s : KeyFrameInterpolator) :=
  mkKFI (fps_ s) (interpolation_speed_ s) (interpolation_started_ s)
        (last_stopped_index_ s) b (keyframes_ s) (interpolated_path_ s)
        (path_drawable_ s) (cameras_drawable_ s) (timer_ s) (events_ s).
Definition with_keyframes (k : list KeyFrame) (s : KeyFrameInterpolator) :=
  mkKFI (fps_ s) (interpolation_speed_ s) (interpolation_started_ s)
        (last_stopped_index_ s) (pathIsValid_ s) k (interpolated_path_ s)
        (path_drawable_ s) (cameras_drawable_ s) (timer_ s) (events_ s).
Definition with_interpolated_path (p : list Frame) (s : KeyFrameInterpolator) :=
  mkKFI (fps_ s) (interpolation_speed_ s) (interpolation_started_ s)
        (last_stopped_index_ s) (pathIsValid_ s) (keyframes_ s) p
        (path_drawable_ s) (cameras_drawable_ s) (timer_ s) (events_ s).
Definition with_drawables (p c : option (list vec3)) (s : KeyFrameInterpolator) :=
  mkKFI (fps_ s) (interpolation_speed_ s) (interpolation_started_ s)
        (last_stopped_index_ s) (pathIsValid_ s) (keyframes_ s)
        (interpolated_path_ s) p c (timer_ s) (events_ s).
Definition with_timer (t : Timer) (s : KeyFrameInterpolator) :=
  mkKFI (fps_ s) (interpolation_speed_ s) (interpolation_started_ s)
        (last_stopped_index_ s) (pathIsValid_ s) (keyframes_ s)
        (interpolated_path_ s) (path_drawable_ s) (cameras_drawable_ s) t
        (events_ s).
Definition with_fps (f : Z) (s : KeyFrameInterpolator) :=
  mkKFI f (interpolation_speed_ s) (interpolation_started_ s)
        (last_stopped_index_ s) (pathIsValid_ s) (keyframes_ s)
        (interpolated_path_ s) (path_drawable_ s) (cameras_drawable_ s)
        (timer_ s) (events_ s).
Definition with_speed (v : F32.float) (s : KeyFrameInterpolator) :=
  mkKFI (fps_ s) v (interpolation_started_ s)
        (last_stopped_index_ s) (pathIsValid_ s) (keyframes_ s)
        (interpolated_path_ s) (path_drawable_ s) (cameras_drawable_ s)
        (timer_ s) (events_ s).

(** An effect is appended to the trace. *)
Definition emit (e : Event) (s : KeyFrameInterpolator) :=
  mkKFI (fps_ s) (interpolation_speed_ s) (interpolation_started_ s)
        (last_stopped_index_ s) (pathIsValid_ s) (keyframes_ s)
        (interpolated_path_ s) (path_drawable_ s) (cameras_drawable_ s)
        (timer_ s) (events_ s ++ [e]).

(** The lines logged at severity ERROR. *)
Definition error_log (s : KeyFrameInterpolator) : list String.string :=
  flat_map (fun e => match e with LogError m => [m] | _ => [] end) (events_ s).

(** Modelled from the spec: the accessors of the header
    ([key_frame_interpolator.h], not among the sources).  The period is
    the duration of one frame in milliseconds at the configured frame
    rate, an [int]. *)
Definition interpolation_speed (s : KeyFrameInterpolator) : F32.float :=
  interpolation_speed_ s.
Definition interpolation_period (s : KeyFrameInterpolator) : Z :=
  Z.quot 1000 (fps_ s).

Definition set_interpolation_speed (v : F32.float) (s : KeyFrameInterpolator) :=
  with_pathIsValid false (with_speed v s).
Definition set_frame_rate (f : Z) (s : KeyFrameInterpolator) :=
  with_pathIsValid false (with_fps f s).

Definition firstTime (s : KeyFrameInterpolator) : F32.float :=
  match keyframes_ s with
  | [] => F32.zero
  | kf :: _ => time_ kf
  end.

Definition lastTime (s : KeyFrameInterpolator) : F32.float :=
  match keyframes_ s with
  | [] => F32.zero
  | _ :: _ => time_ (last (keyframes_ s) KeyFrame_default)
  end.

Definition duration (s : KeyFrameInterpolator) : F32.float :=
  F32.sub (lastTime s) (firstTime s).

Definition stop_interpolation (s : KeyFrameInterpolator) : KeyFrameInterpolator :=
  with_started false (with_timer (Timer_stop (timer_ s)) s).

(** [add_keyframe(const Frame &frame, float time)]. *)
Definition add_keyframe (s : KeyFrameInterpolator) (frame : Frame) (time : F32.float)
  : KeyFrameInterpolator :=
  let s1 :=
    if negb (match keyframes_ s with [] => true | _ => false end)
       && F32.geb (time_ (last (keyframes_ s) KeyFrame_default)) time
    then emit (LogError "time is not monotone") s
    else with_keyframes (keyframes_ s ++ [new_KeyFrame frame time]) s in
  stop_interpolation (with_last_stopped_index 0 (with_pathIsValid false s1)).

(** [delete_last_keyframe()].  [pop_back] on an empty vector has no
    defined behaviour: [None]. *)
Definition delete_last_keyframe (s : KeyFrameInterpolator) : option KeyFrameInterpolator :=
  match keyframes_ s with
  | [] => None
  | _ :: _ =>
      Some (stop_interpolation
              (with_last_stopped_index 0
                 (with_pathIsValid false
                    (with_keyframes (removelast (keyframes_ s)) s))))
  end.

(** [add_keyframe(const Frame &frame)], the overload that computes the
    time.  Its function-local [static float period_reference_distance] is
    one variable for the whole process: it comes in as [ref] and goes out
    with the new state. *)
Definition add_keyframe_auto (ref : F32.float) (s : KeyFrameInterpolator) (frame : Frame)
  : F32.float * KeyFrameInterpolator :=
  match keyframes_ s with
  | [] => (ref, add_keyframe s frame F32.zero)
  | [k0] =>
      (distance (p_ k0) (position frame), add_keyframe s frame F32.one)
  | _ :: _ :: _ =>
      let back := last (keyframes_ s) KeyFrame_default in
      (ref,
       add_keyframe s frame
         (F32.add (time_ back)
            (F32.div (F32.mul F32.one (distance (p_ back) (position frame))) ref)))
  end.

Definition delete_path (s : KeyFrameInterpolator) : KeyFrameInterpolator :=
  with_drawables None None
    (with_last_stopped_index 0
       (with_pathIsValid false
          (with_interpolated_path []
             (with_keyframes [] (stop_interpolation s))))).

(* ================================================================== *)
(** ** Reading key frames from a file *)

(** What the extraction operators obtain from an opened stream: the
    number after the first token, and for each [j] the pose of the j-th
    block as [pos] and [orient] hold it after the reads (whatever they
    hold when a read fails). *)
Record KeyFrameFile : Type := mkKeyFrameFile {
  num_key_frames : Z;
  frame_block : nat -> Frame
}.

(** The files that can be opened, by name. *)
Definition FileSystem : Type := String.string -> option KeyFrameFile.

(** The loop [for (int j = 0; j < num_key_frames; ++j)], with [n]
    iterations left. *)
Fixpoint read_blocks (file : KeyFrameFile) (n j : nat)
  (ref : F32.float) (s : KeyFrameInterpolator) : F32.float * KeyFrameInterpolator :=
  match n with
  | O => (ref, s)
  | S n' =>
      let '(ref', s') := add_keyframe_auto ref s (frame_block file j) in
      read_blocks file n' (S j) ref' s'
  end.

Definition read_keyframes (fs : FileSystem) (ref : F32.float)
  (s : KeyFrameInterpolator) (file_name : String.string)
  : bool * F32.float * KeyFrameInterpolator :=
  match fs file_name with
  | None =>
      (false, ref, emit (LogError (String.append "unable to open '" (String.append file_name "'"))) s)
  | Some file =>
      let '(ref', s') :=
        read_blocks file (Z.to_nat (num_key_frames file)) 0 ref (delete_path s) in
      (negb (Nat.eqb (length (keyframes_ s')) 0), ref', s')
  end.

(* ================================================================== *)
(** ** Tangents, bracket search and the spline *)

Section Spline.
Context {M : MathLib}.

Definition half : F32.float := F32.div (F32.of_Z 1) (F32.of_Z 2).

(** [KeyFrame::computeTangent(prev, next)] on the key frame [kf]. *)
Definition computeTangent (prev next kf : KeyFrame) : KeyFrame :=
  let sd_prev := distance2 (p_ prev) (p_ kf) in
  let sd_next := distance2 (p_ next) (p_ kf) in
  let tgP :=
    if F32.ltb sd_prev sd_next then
      let new_next :=
        vadd (p_ kf) (vscale (F32.sqrt sd_prev) (normalize (vsub (p_ next) (p_ kf)))) in
      vscale half (vsub new_next (p_ prev))
    else
      let new_prev :=
        vadd (p_ kf) (vscale (F32.sqrt sd_next) (normalize (vsub (p_ prev) (p_ kf)))) in
      vscale half (vsub (p_ next) new_prev) in
  mkKeyFrame (p_ kf) (q_ kf) (time_ kf) tgP
             (squad_tangent (q_ prev) (q_ kf) (q_ next)).

(** First loop of [updateModifiedFrameValues]: [prevQ] is the orientation
    of the key frame before, after its own flip. *)
Fixpoint flip_pass (prevQ : quat) (keyFrames : list KeyFrame) : list KeyFrame :=
  match keyFrames with
  | [] => []
  | kf :: rest =>
      let kf' := flipOrientationIfNeeded prevQ kf in
      kf' :: flip_pass (q_ kf') rest
  end.

(** Second loop of [updateModifiedFrameValues]: [prev] is the key frame
    before (the first one for the first), the last key frame is its own
    [next]. *)
Fixpoint tangent_pass (prev : KeyFrame) (keyFrames : list KeyFrame) : list KeyFrame :=
  match keyFrames with
  | [] => []
  | kf :: rest =>
      let next := match rest with [] => kf | n :: _ => n end in
      let kf' := computeTangent prev next kf in
      kf' :: tangent_pass kf' rest
  end.

(** [updateModifiedFrameValues]; [front()] of an empty vector has no
    defined behaviour: [None]. *)
Definition updateModifiedFrameValues (keyFrames : list KeyFrame) : option (list KeyFrame) :=
  match keyFrames with
  | [] => None
  | front :: _ =>
      match flip_pass (q_ front) keyFrames with
      | [] => Some []
      | front' :: rest' => Some (tangent_pass front' (front' :: rest'))
      end
  end.

(** First loop of [getRelatedKeyFramesForTime], on the index of
    [relatedFrames[1]]. *)
Fixpoint scan_backward (time : F32.float) (keyFrames : list KeyFrame) (i : nat) : nat :=
  if F32.gtb (time_ (nth i keyFrames KeyFrame_default)) time then
    match i with
    | O => O
    | S j => scan_backward time keyFrames j
    end
  else i.

(** Second loop, on the index [i] of [relatedFrames[2]]; [rest] is the
    vector from that index on.  A key frame is [keyFrames.back()] when
    nothing follows it (the vector holds distinct pointers). *)
Fixpoint scan_forward (time : F32.float) (rest : list KeyFrame) (i : nat) : nat :=
  match rest with
  | [] => i
  | kf :: rest' =>
      if F32.ltb (time_ kf) time then
        match rest' with
        | [] => i
        | _ :: _ => scan_forward time rest' (S i)
        end
      else i
  end.

(** [getRelatedKeyFramesForTime]: the indices of [relatedFrames[0..3]];
    [None] on the empty vector, whose [begin()] cannot be read. *)
Definition getRelatedKeyFramesForTime (time : F32.float) (keyFrames : list KeyFrame)
  : option (nat * nat * nat * nat) :=
  match keyFrames with
  | [] => None
  | _ :: _ =>
      let r1 := scan_backward time keyFrames 0 in
      let r2 := scan_forward time (skipn r1 keyFrames) r1 in
      let r1' :=
        if negb (Nat.eqb r2 0)
           && F32.ltb time (time_ (nth r2 keyFrames KeyFrame_default))
        then Nat.pred r2 else r2 in
      let r0 := if negb (Nat.eqb r1' 0) then Nat.pred r1' else r1' in
      let r3 := if negb (Nat.eqb r2 (Nat.pred (length keyFrames))) then S r2 else r2 in
      Some (r0, r1', r2, r3)
  end.

(** [computeSpline] on the key frames of [relatedFrames[1]] and [[2]]. *)
Definition computeSpline (k1 k2 : KeyFrame) : vec3 * vec3 :=
  let delta := vsub (p_ k2) (p_ k1) in
  (vsub (vsub (vscale (F32.of_Z 3) delta) (vscale (F32.of_Z 2) (tgP_ k1))) (tgP_ k2),
   vadd (vadd (vscale (F32.of_Z (-2)) delta) (tgP_ k1)) (tgP_ k2)).

(** The parameter of the spline between the bracketing key frames. *)
Definition spline_alpha (time : F32.float) (k1 k2 : KeyFrame) : F32.float :=
  let dt := F32.sub (time_ k2) (time_ k1) in
  if F32.ltb (F32.abs dt) epsilon then F32.zero
  else F32.div (F32.sub time (time_ k1)) dt.

(** The body of the [for] loop of [do_interpolate]: the frame of the
    spline at [time]. *)
Definition frame_at_time (time : F32.float) (keyFrames : list KeyFrame) : option Frame :=
  match getRelatedKeyFramesForTime time keyFrames with
  | None => None
  | Some (_, r1, r2, _) =>
      let k1 := nth r1 keyFrames KeyFrame_default in
      let k2 := nth r2 keyFrames KeyFrame_default in
      let '(v1, v2) := computeSpline k1 k2 in
      let alpha := spline_alpha time k1 k2 in
      let pos :=
        vadd (p_ k1)
             (vscale alpha (vadd (tgP_ k1) (vscale alpha (vadd v1 (vscale alpha v2))))) in
      let q := squad (q_ k1) (tgQ_ k1) (tgQ_ k2) (q_ k2) alpha in
      Some (mkFrame pos q)
  end.

(** [interpolation_speed() * interpolation_period() / 1000.0f], the step
    of [do_interpolate] and of [smooth]. *)
Definition sample_interval (s : KeyFrameInterpolator) : F32.float :=
  F32.div (F32.mul (interpolation_speed s) (F32.of_Z (interpolation_period s)))
          (F32.of_Z 1000).

(** The [for] loop of [do_interpolate] from [time] on.  The loop need not
    end (a step of zero never advances): [None] when [fuel] iterations
    were not enough. *)
Fixpoint sample_loop (fuel : nat) (last interval : F32.float)
  (keyFrames : list KeyFrame) (time : F32.float) : option (list Frame) :=
  match fuel with
  | O => None
  | S fuel' =>
      if F32.ltb time (F32.add last interval) then
        match frame_at_time time keyFrames,
              sample_loop fuel' last interval keyFrames (F32.add time interval) with
        | Some f, Some rest => Some (f :: rest)
        | _, _ => None
        end
      else Some []
  end.

(** The times at which that loop evaluates the spline. *)
Fixpoint sample_times (fuel : nat) (last interval time : F32.float) : option (list F32.float) :=
  match fuel with
  | O => None
  | S fuel' =>
      if F32.ltb time (F32.add last interval) then
        match sample_times fuel' last interval (F32.add time interval) with
        | Some rest => Some (time :: rest)
        | None => None
        end
      else Some []
  end.

(** [do_interpolate(frames, keyFrames)]: the new contents of [frames] and
    of the key frames it was given (their orientations flipped and their
    tangents set).  The range of times is that of the track of the
    object, [firstTime()] to [lastTime()], whichever key frames are
    given. *)
Definition do_interpolate (fuel : nat) (s : KeyFrameInterpolator)
  (keyFrames : list KeyFrame) : option (list Frame * list KeyFrame) :=
  match updateModifiedFrameValues keyFrames with
  | None => Some ([], keyFrames)
  | Some keyFrames' =>
      match sample_loop fuel (lastTime s) (sample_interval s) keyFrames' (firstTime s) with
      | Some frames => Some (frames, keyFrames')
      | None => None
      end
  end.

(** The first loop of [smooth]: the key frames made of the frames, [acc]
    being [as_key_frames] so far and [ref] the local
    [period_reference_distance]. *)
Fixpoint as_key_frames_loop (interval : F32.float) (frames : list Frame)
  (acc : list KeyFrame) (ref : F32.float) : list KeyFrame :=
  match frames with
  | [] => acc
  | f :: rest =>
      match acc with
      | [] => as_key_frames_loop interval rest [new_KeyFrame f F32.zero] ref
      | [k0] =>
          as_key_frames_loop interval rest (acc ++ [new_KeyFrame f interval])
            (distance (p_ k0) (position f))
      | _ :: _ :: _ =>
          let back := last acc KeyFrame_default in
          let time :=
            F32.add (time_ back)
              (F32.div (F32.mul interval (distance (p_ back) (position f))) ref) in
          as_key_frames_loop interval rest (acc ++ [new_KeyFrame f time]) ref
      end
  end.

Definition as_key_frames (s : KeyFrameInterpolator) (frames : list Frame) : list KeyFrame :=
  as_key_frames_loop (sample_interval s) frames [] F32.zero.

(** The duration of the track made of the frames, the divisor of
    [ratio]. *)
Definition as_key_frames_duration (s : KeyFrameInterpolator) (frames : list Frame) : F32.float :=
  let kfs := as_key_frames s frames in
  F32.sub (time_ (last kfs KeyFrame_default)) (time_ (hd KeyFrame_default kfs)).

Definition smooth_ratio (s : KeyFrameInterpolator) (frames : list Frame) : F32.float :=
  F32.div (duration s) (as_key_frames_duration s frames).

(** [smooth(frames)]: the new contents of [frames] and the object (its
    log). *)
Definition smooth (fuel : nat) (s : KeyFrameInterpolator) (frames : list Frame)
  : option (list Frame * KeyFrameInterpolator) :=
  if Nat.ltb (length frames) 2 then Some (frames, s)
  else
    let ratio := smooth_ratio s frames in
    if F32.is_nan ratio then Some (frames, emit (LogError "duration is 0") s)
    else
      let kfs := map (fun f => set_time (F32.mul (time_ f) ratio) f) (as_key_frames s frames) in
      match do_interpolate fuel s kfs with
      | Some (frames', _) => Some (frames', s)
      | None => None
      end.

(** [interpolate()]. *)
Definition interpolate (fuel : nat) (s : KeyFrameInterpolator) : option KeyFrameInterpolator :=
  if pathIsValid_ s then Some s
  else
    let n := length (keyframes_ s) in
    let s1 := if Nat.ltb 2 n then emit (LogInfoInterpolating n) s else s in
    match do_interpolate fuel s1 (keyframes_ s1) with
    | None => None
    | Some (frames, keyFrames') =>
        let s2 := with_interpolated_path frames (with_keyframes keyFrames' s1) in
        let s3 := if Nat.ltb 2 n then emit (LogInfoDone (length frames)) s2 else s2 in
        match smooth fuel s3 (interpolated_path_ s3) with
        | None => None
        | Some (frames', s4) =>
            Some (with_pathIsValid true (with_interpolated_path frames' s4))
        end
    end.

(** [start_interpolation()]: the callback is handed to the timer. *)
Definition start_interpolation (fuel : nat) (s : KeyFrameInterpolator)
  : option KeyFrameInterpolator :=
  match keyframes_ s with
  | [] => Some s
  | _ :: _ =>
      match (if pathIsValid_ s then Some s else interpolate fuel s) with
      | None => None
      | Some s1 =>
          Some (with_timer (Timer_set_timeout (timer_ s1)) (with_started true s1))
      end
  end.

End Spline.

(** The [for] loop of the callback of [start_interpolation], run with no
    other thread touching the object meanwhile: [path] is the interpolated
    path from index [id] on, [size] its full length.  The pause between
    two frames is not modelled. *)
Fixpoint playback_frames (path : list Frame) (id size : Z) (s : KeyFrameInterpolator)
  : KeyFrameInterpolator :=
  match path with
  | [] => s
  | f :: rest =>
      if Timer_is_stopped (timer_ s) then with_last_stopped_index id s
      else
        let s1 := emit (SetPositionAndOrientation f) s in
        let s2 := if Z.eqb id (size - 1) then with_last_stopped_index 0 s1 else s1 in
        playback_frames rest (id + 1) size (emit FrameInterpolated s2)
  end.

(** The callback as a whole. *)
Definition playback_callback (s : KeyFrameInterpolator) : KeyFrameInterpolator :=
  let id := last_stopped_index_ s in
  let path := interpolated_path_ s in
  let s' := playback_frames (skipn (Z.to_nat id) path) id (Z.of_nat (length path)) s in
  with_started false (emit InterpolationStopped s').

(** The frames written to the driven frame, in order. *)
Definition sink_writes (s : KeyFrameInterpolator) : list Frame :=
  flat_map (fun e => match e with SetPositionAndOrientation f => [f] | _ => [] end)
           (events_ s).

(* ================================================================== *)
(** ** Notions used in the statements *)

(** The times of the key frames increase strictly along the track. *)
Fixpoint times_increasing (keyFrames : list KeyFrame) : bool :=
  match keyFrames with
  | [] => true
  | a :: rest =>
      match rest with
      | [] => true
      | b :: _ => F32.ltb (time_ a) (time_ b) && times_increasing rest
      end
  end.

(** [y] is [x] negated, up to the sign of a zero. *)
Definition negated (x y : F32.float) : Prop :=
  y = F32.opp x \/ (F32.is_zero x = true /\ F32.is_zero y = true).

(** A dot product that is not negative: the test [d < 0] of
    [flipOrientationIfNeeded] fails, and [0 <= d] holds unless [d] is a
    NaN. *)
Definition dot_is_nonnegative (a b : quat) : Prop :=
  F32.ltb (quat_dot a b) F32.zero = false
  /\ (F32.is_nan (quat_dot a b) = false -> F32.leb F32.zero (quat_dot a b) = true).

(** The sampling step as the specification words it:
    [(1.0 / frameRate) / playbackSpeed]. *)
Definition spec_sample_interval (frameRate : Z) (playbackSpeed : F32.float) : F32.float :=
  F32.div (F32.div F32.one (F32.of_Z frameRate)) playbackSpeed.

(** A run of appends with computed times. *)
Definition add_keyframes_auto (ref : F32.float) (s : KeyFrameInterpolator)
  (frames : list Frame) : F32.float * KeyFrameInterpolator :=
  fold_left (fun rs f => add_keyframe_auto (fst rs) (snd rs) f) frames (ref, s).

(** The time that the computed-time rule gives the key frame [b] that
    follows [a]: [unit] is the time of the first interval ([1.0f] in
    [add_keyframe], the sampling step in [smooth]) and the reference
    distance is that between [k0] and [k1]. *)
Definition chord_time (unit : F32.float) (k0 k1 a b : KeyFrame) : F32.float :=
  F32.add (time_ a)
    (F32.div (F32.mul unit (distance (p_ a) (p_ b))) (distance (p_ k0) (p_ k1))).

(** The times of a track filled by that rule. *)
Definition auto_times (unit : F32.float) (ks : list KeyFrame) : Prop :=
  (forall k0, nth_error ks 0 = Some k0 -> time_ k0 = F32.zero)
  /\ (forall k1, nth_error ks 1 = Some k1 -> time_ k1 = unit)
  /\ (forall k0 k1 i a b,
        nth_error ks 0 = Some k0 -> nth_error ks 1 = Some k1 -> (1 <= i)%nat ->
        nth_error ks i = Some a -> nth_error ks (S i) = Some b ->
        time_ b = chord_time unit k0 k1 a b).

(** The reference distance is that of the first two key frames, once
    there are two. *)
Definition reference_recorded (ref : F32.float) (ks : list KeyFrame) : Prop :=
  forall k0 k1, nth_error ks 0 = Some k0 -> nth_error ks 1 = Some k1 ->
  ref = distance (p_ k0) (p_ k1).

(** The test of [add_keyframe(frame, time)] that refuses a time. *)
Definition rejects (keyFrames : list KeyFrame) (time : F32.float) : bool :=
  negb (match keyFrames with [] => true | _ => false end)
  && F32.geb (time_ (last keyFrames KeyFrame_default)) time.

(** The time of the key frame at an index. *)
Definition time_at (keyFrames : list KeyFrame) (i : nat) : F32.float :=
  time_ (nth i keyFrames KeyFrame_default).

(** Every two neighbours of [l], and [prevQ] with the first of [l], have
    a dot product that is not negative. *)
Fixpoint chain_nonnegative (prevQ : quat) (l : list KeyFrame) : Prop :=
  match l with
  | [] => True
  | kf :: rest => dot_is_nonnegative prevQ (q_ kf) /\ chain_nonnegative (q_ kf) rest
  end.

(** An instance of the library for the examples.  [normalize] scales by
    the inverse of the length, a null vector staying null; the two
    quaternion functions need trigonometry and are stood for by their
    first orientation: the examples look at times and positions. *)
Definition example_normalize (v : vec3) : vec3 :=
  let len := distance v vec3_default in
  vscale (if F32.ltb F32.zero len then F32.div F32.one len else F32.zero) v.

Definition example_lib : MathLib := {|
  normalize := example_normalize;
  squad := fun a _ _ _ _ => a;
  squad_tangent := fun _ q _ => q
|}.

Definition point (x y z : Z) : vec3 := mkVec3 (F32.of_Z x) (F32.of_Z y) (F32.of_Z z).
Definition pose (x y z : Z) : Frame := mkFrame (point x y z) quat_default.

(** The key frame [k] has a finite time, position and tangent, and the
    coefficients of the spline from [k] to itself are finite. *)
Definition end_point_finite (k : KeyFrame) : Prop :=
  F32.is_finite (time_ k) = true
  /\ vec3_is_finite (p_ k) = true
  /\ vec3_is_finite (tgP_ k) = true
  /\ vec3_is_finite (fst (computeSpline k k)) = true
  /\ vec3_is_finite (snd (computeSpline k k)) = true.

(** *** Objects and tracks of the examples *)

(** Two key frames one unit apart, appended with computed times 0 and 1. *)
Definition two_key_frames : KeyFrameInterpolator :=
  snd (add_keyframes_auto F32.zero KeyFrameInterpolator_new [pose 0 0 0; pose 1 0 0]).

(** Three key frames on a line, at the times 0, 1 and 2. *)
Definition three_key_frames : KeyFrameInterpolator :=
  snd (add_keyframes_auto F32.zero KeyFrameInterpolator_new
         [pose 0 0 0; pose 1 0 0; pose 2 0 0]).

(** Two frames per second: a period of 500 ms. *)
Definition slow : KeyFrameInterpolator := set_frame_rate 2 two_key_frames.

(** Thirty frames per second played at twice the speed. *)
Definition double_speed : KeyFrameInterpolator :=
  set_interpolation_speed (F32.of_Z 2) (set_frame_rate 30 two_key_frames).

(** A speed of zero: the sampling step is zero. *)
Definition stalled : KeyFrameInterpolator :=
  set_interpolation_speed F32.zero two_key_frames.

Definition two_frames : list Frame := [pose 0 0 0; pose 1 0 0].

(** An object in the middle of a playback: the path is computed, the loop
    was started and the next frame to show is the one at index 1. *)
Definition playing : KeyFrameInterpolator :=
  match start_interpolation (M := example_lib) 10 slow with
  | Some s => with_last_stopped_index 1 s
  | None => KeyFrameInterpolator_new
  end.

(** A track whose first key frame was appended at the time minus
    infinity. *)
Definition track_from_minus_infinity : list KeyFrame :=
  [new_KeyFrame (pose 1 0 0) F32.neg_infinity; new_KeyFrame (pose 2 0 0) F32.zero].

(** Two key frames whose orientations are opposite quaternions. *)
Definition opposite_orientations : list KeyFrame :=
  [new_KeyFrame (mkFrame (point 0 0 0) quat_default) F32.zero;
   new_KeyFrame (mkFrame (point 1 0 0) (quat_negate quat_default)) F32.one].

(** No file can be opened. *)
Definition no_file : FileSystem := fun _ => None.

(** One file, of two blocks. *)
Definition one_file : FileSystem :=
  fun name =>
    if String.eqb name "path.kf"
    then Some (mkKeyFrameFile 2 (fun j => pose (Z.of_nat j) 0 0))
    else None.

(* ================================================================== *)
(** ** Further member functions *)

(** [keyframe(index)] and [keyframe_time(index)]: [at] throws on an index
    that is out of range, [None]. *)
Definition keyframe (s : KeyFrameInterpolator) (index : nat) : option Frame :=
  match nth_error (keyframes_ s) index with
  | Some kf => Some (mkFrame (p_ kf) (q_ kf))
  | None => None
  end.

Definition keyframe_time (s : KeyFrameInterpolator) (index : nat) : option F32.float :=
  match nth_error (keyframes_ s) index with
  | Some kf => Some (time_ kf)
  | None => None
  end.

(** The lines that [save_keyframes] writes, by what each holds; how a
    number is printed is not modelled. *)
Inductive Line : Type :=
| NumKeyFramesLine (n : nat)
| FrameLine (id : nat)
| PositionLine (p : vec3)
| OrientationLine (q : quat).

(** The loop of [save_keyframes] from the index [id] on. *)
Fixpoint save_frames (id : nat) (keyFrames : list KeyFrame) : list Line :=
  match keyFrames with
  | [] => []
  | kf :: rest =>
      FrameLine id :: PositionLine (p_ kf) :: OrientationLine (q_ kf)
      :: save_frames (S id) rest
  end.

(** [save_keyframes(file_name)]: the value returned, the lines written
    when the file could be opened for writing, and the object (its
    log). *)
Definition save_keyframes (can_open : String.string -> bool)
  (s : KeyFrameInterpolator) (file_name : String.string)
  : bool * option (list Line) * KeyFrameInterpolator :=
  if can_open file_name then
    (negb (Nat.eqb (length (keyframes_ s)) 0),
     Some (NumKeyFramesLine (length (keyframes_ s)) :: save_frames 0 (keyframes_ s)),
     s)
  else
    (false, None,
     emit (LogError (String.append "unable to open '" (String.append file_name "'"))) s).

(** *** Notions used in the further statements *)

(** A float that is not below zero by its sign: a NaN, or a zero, a
    finite number or an infinity with the sign bit clear. *)
Definition sign_clear (x : F32.float) : bool :=
  match x with
  | S754_nan => true
  | S754_zero s | S754_infinity s | S754_finite s _ _ => negb s
  end.

Definition vec3_is_zero (a : vec3) : bool :=
  F32.is_zero (vx a) && F32.is_zero (vy a) && F32.is_zero (vz a).

(** Two key frames with the same position, orientation and time. *)
Definition same_pose (a b : KeyFrame) : Prop :=
  p_ a = p_ b /\ q_ a = q_ b /\ time_ a = time_ b.

(** The same position and time, and the same orientation up to its
    sign. *)
Definition same_pose_up_to_sign (a b : KeyFrame) : Prop :=
  p_ a = p_ b /\ time_ a = time_ b /\ (q_ a = q_ b \/ q_ a = quat_negate (q_ b)).

(** The smallest exponent of a [float], that of the subnormal numbers. *)
Definition emin : Z := SpecFloat.emin F32.prec F32.emax.

(** [x] is a number or an infinity of the sign [b] and not a zero, or a
    NaN; a finite [x] has an exponent that is not below [emin]. *)
Definition of_sign (b : bool) (x : F32.float) : Prop :=
  match x with
  | S754_zero _ => False
  | S754_infinity s => s = b
  | S754_nan => True
  | S754_finite s _ e => s = b /\ emin <= e
  end.


(** *** Two objects in one process

    [period_reference_distance] is a [static] local of
    [add_keyframe(const Frame &)]: there is one for the process, whatever
    the object the function is called on.  A process with two objects, the
    static starting at [0.0f]. *)
Inductive ObjectId : Type := ObjectA | ObjectB.

Record Process : Type := mkProcess {
  period_reference_distance : F32.float;
  object_a : KeyFrameInterpolator;
  object_b : KeyFrameInterpolator
}.

Definition Process_start : Process :=
  mkProcess F32.zero KeyFrameInterpolator_new KeyFrameInterpolator_new.

(** A call of [add_keyframe(frame)] on one of the objects. *)
Definition process_add_keyframe (p : Process) (o : ObjectId) (frame : Frame) : Process :=
  match o with
  | ObjectA =>
      let '(ref, a) := add_keyframe_auto (period_reference_distance p) (object_a p) frame in
      mkProcess ref a (object_b p)
  | ObjectB =>
      let '(ref, b) := add_keyframe_auto (period_reference_distance p) (object_b p) frame in
      mkProcess ref (object_a p) b
  end.

Definition process_add_keyframes (p : Process) (calls : list (ObjectId * Frame)) : Process :=
  fold_left (fun p c => process_add_keyframe p (fst c) (snd c)) calls p.

(** The rule of computed times in the words of the comment of
    [add_keyframe(frame)]: the first key frame at 0, the second at 1, and
    every later one at the time of the one before plus the distance to it,
    relative to the distance between the first two key frames of the
    track.  A time that [add_keyframe(frame, time)] refuses adds
    nothing. *)
Definition chord_rule_step (keyFrames : list KeyFrame) (frame : Frame) : list KeyFrame :=
  let time :=
    match keyFrames with
    | [] => F32.zero
    | [_] => F32.one
    | k0 :: k1 :: _ =>
        let back := last keyFrames KeyFrame_default in
        F32.add (time_ back)
          (F32.div (F32.mul F32.one (distance (p_ back) (position frame)))
                   (distance (p_ k0) (p_ k1)))
    end in
  if rejects keyFrames time then keyFrames else keyFrames ++ [new_KeyFrame frame time].

Definition chord_rule_track (frames : list Frame) : list KeyFrame :=
  fold_left chord_rule_step frames [].

(** Two objects that are filled in turn: the second key frame of the
    object B is appended between the second and the third of the object
    A. *)
Definition interleaved_calls : list (ObjectId * Frame) :=
  [(ObjectA, pose 0 0 0); (ObjectA, pose 1 0 0);
   (ObjectB, pose 0 0 0); (ObjectB, pose 2 0 0);
   (ObjectA, pose 2 0 0)].

(* ================================================================== *)
(** ** Facts about the comparisons and the signs of floats *)

Local Open Scope nat_scope.

Ltac float_cmp :=
  unfold F32.ltb, F32.leb, F32.eqb, F32.gtb, F32.geb, SFltb, SFleb, SFeqb, SFcompare in *;
  repeat match goal with
  | x : F32.float |- _ => destruct x as [[]|[]| |[] ? ?]
  end;
  simpl in *; try congruence;
  change (Pos.compare_cont Eq) with Pos.compare in *;
  repeat match goal with
  | H : context [Z.compare ?a ?b] |- _ => destruct (Z.compare_spec a b); simpl in H
  | |- context [Z.compare ?a ?b] => destruct (Z.compare_spec a b); simpl
  | H : context [Pos.compare ?a ?b] |- _ => destruct (Pos.compare_spec a b); simpl in H
  | |- context [Pos.compare ?a ?b] => destruct (Pos.compare_spec a b); simpl
  end;
  subst; simpl in *; try reflexivity; try congruence; try lia.

Lemma ltb_irrefl x : F32.ltb x x = false.
Proof. float_cmp. Qed.

Lemma ltb_trans x y z : F32.ltb x y = true -> F32.ltb y z = true -> F32.ltb x z = true.
Proof. intros; float_cmp. Qed.

Lemma ltb_leb x y : F32.ltb x y = true -> F32.leb x y = true.
Proof. intros; float_cmp. Qed.

Lemma ltb_asym x y : F32.ltb x y = true -> F32.leb y x = false.
Proof. intros; float_cmp. Qed.

Lemma ltb_false_leb x y : F32.is_nan x = false -> F32.is_nan y = false -> F32.ltb x y = false -> F32.leb y x = true.
Proof. intros; float_cmp. Qed.

Lemma leb_not_nan x y : F32.leb x y = true -> F32.is_nan x = false /\ F32.is_nan y = false.
Proof. intros; split; float_cmp. Qed.

Lemma ltb_leb_trans x y z : F32.ltb x y = true -> F32.leb y z = true -> F32.ltb x z = true.
Proof. intros; float_cmp. Qed.

Lemma leb_ltb_trans x y z : F32.leb x y = true -> F32.ltb y z = true -> F32.ltb x z = true.
Proof. intros; float_cmp. Qed.

Lemma binary_round_aux_negb s m e l :
  binary_round_aux F32.prec F32.emax (negb s) m e l
  = SFopp (binary_round_aux F32.prec F32.emax s m e l).
Proof.
  unfold binary_round_aux.
  destruct (shr_fexp F32.prec F32.emax m e l) as [mrs' e'].
  destruct (shr_fexp F32.prec F32.emax _ e' loc_Exact) as [mrs'' e''].
  destruct (shr_m mrs''); simpl; try reflexivity.
  destruct (Z.leb e'' _); reflexivity.
Qed.

Lemma binary_round_negb s m e :
  binary_round F32.prec F32.emax (negb s) m e
  = SFopp (binary_round F32.prec F32.emax s m e).
Proof.
  unfold binary_round.
  destruct (shl_align m e _) as [mz ez].
  apply binary_round_aux_negb.
Qed.

Lemma mul_opp_r x y : F32.mul x (F32.opp y) = F32.opp (F32.mul x y).
Proof.
  destruct x as [sx|sx| |sx mx ex], y as [sy|sy| |sy my ey]; simpl; try reflexivity;
    try (destruct sx, sy; reflexivity).
  unfold F32.mul, SFmul.
  replace (xorb sx (negb sy)) with (negb (xorb sx sy)) by (destruct sx, sy; reflexivity).
  apply binary_round_aux_negb.
Qed.

Lemma binary_normalize_opp m e :
  negated (binary_normalize F32.prec F32.emax m e false)
          (binary_normalize F32.prec F32.emax (- m) e false).
Proof.
  destruct m as [|p|p]; simpl.
  - right; split; reflexivity.
  - left. apply (binary_round_negb false).
  - left. change (binary_round F32.prec F32.emax true p e) with (binary_round F32.prec F32.emax (negb false) p e).
    rewrite binary_round_negb. destruct (binary_round F32.prec F32.emax false p e) as [[]|[]| |[] ? ?]; reflexivity.
Qed.

Lemma add_negated x x' y y' :
  negated x x' -> negated y y' -> negated (F32.add x y) (F32.add x' y').
Proof.
  intros [Hx|[Hx Hx']] [Hy|[Hy Hy']]; subst.
  - destruct x as [sx|sx| |sx mx ex], y as [sy|sy| |sy my ey];
      try (destruct sx, sy; simpl; (left; reflexivity) || (right; split; reflexivity)).
    all: try (left; reflexivity).
    unfold F32.add, F32.opp, SFadd, SFopp.
    match goal with |- negated (binary_normalize _ _ ?m _ _) (binary_normalize _ _ ?m' _ _) =>
      replace m' with (- m) by (unfold cond_Zopp; destruct sx, sy; cbn [negb]; lia) end.
    apply binary_normalize_opp.
  - destruct y as [sy|sy| |sy my ey]; try discriminate.
    destruct y' as [sy'|sy'| |sy' my' ey']; try discriminate.
    destruct x as [sx|sx| |sx mx ex]; simpl;
      try (destruct sx, sy, sy'; simpl; (left; reflexivity) || (right; split; reflexivity)).
    all: left; reflexivity.
  - destruct x as [sx|sx| |sx mx ex]; try discriminate.
    destruct x' as [sx'|sx'| |sx' mx' ex']; try discriminate.
    destruct y as [sy|sy| |sy my ey]; simpl;
      try (destruct sx, sy, sx'; simpl; (left; reflexivity) || (right; split; reflexivity)).
    all: left; reflexivity.
  - destruct x as [sx|sx| |sx mx ex]; try discriminate.
    destruct x' as [sx'|sx'| |sx' mx' ex']; try discriminate.
    destruct y as [sy|sy| |sy my ey]; try discriminate.
    destruct y' as [sy'|sy'| |sy' my' ey']; try discriminate.
    right; destruct sx, sy, sx', sy'; split; reflexivity.
Qed.

Lemma quat_dot_negate p q : negated (quat_dot p q) (quat_dot p (quat_negate q)).
Proof.
  unfold quat_dot, quat_negate; simpl.
  repeat apply add_negated; left; apply mul_opp_r.
Qed.

Lemma negated_of_negative x y :
  negated x y -> F32.ltb x F32.zero = true ->
  F32.ltb y F32.zero = false /\ F32.leb F32.zero y = true.
Proof.
  intros [H|[H _]] Hlt; subst.
  - destruct x as [[]|[]| |[] ? ?]; try discriminate; split; reflexivity.
  - destruct x as [[]|[]| |[] ? ?]; discriminate.
Qed.

Lemma ltb_not_nan x y : F32.ltb x y = true -> F32.is_nan x = false /\ F32.is_nan y = false.
Proof. intros; split; float_cmp. Qed.

Lemma eqb_refl x : F32.is_nan x = false -> F32.eqb x x = true.
Proof. intros; float_cmp. Qed.

Lemma sub_diag x : F32.is_finite x = true -> F32.sub x x = F32.zero.
Proof.
  destruct x as [[]|[]| |s m e]; try discriminate; intros _; try reflexivity.
  unfold F32.sub, SFsub. rewrite Z.sub_diag. reflexivity.
Qed.

Lemma mul_zero_l x : F32.is_finite x = true -> F32.is_zero (F32.mul F32.zero x) = true.
Proof. destruct x as [[]|[]| |s m e]; try discriminate; reflexivity. Qed.

Lemma add_zero_r_finite x z :
  F32.is_finite x = true -> F32.is_zero z = true -> F32.is_finite (F32.add x z) = true.
Proof.
  destruct x as [[]|[]| |s m e], z as [[]|[]| |s' m' e']; try discriminate; reflexivity.
Qed.

Lemma add_zero_r_eqb x z :
  F32.is_finite x = true -> F32.is_zero z = true -> F32.eqb (F32.add x z) x = true.
Proof.
  destruct x as [[]|[]| |s m e], z as [[]|[]| |s' m' e']; try discriminate; intros _ _;
    try reflexivity; apply (eqb_refl (S754_finite s m e)); reflexivity.
Qed.

(** A division by zero gives a NaN only when the dividend is zero or a
    NaN; any other dividend gives an infinity. *)
Lemma div_by_zero_nan x z : F32.is_zero z = true ->
  F32.is_nan (F32.div x z) = F32.is_nan x || F32.is_zero x.
Proof.
  destruct z as [[]|[]| |? ? ?]; try discriminate; intros _;
  destruct x as [[]|[]| |[] ? ?]; reflexivity.
Qed.

Lemma vec3_is_finite_components v : vec3_is_finite v = true ->
  F32.is_finite (vx v) = true /\ F32.is_finite (vy v) = true /\ F32.is_finite (vz v) = true.
Proof.
  unfold vec3_is_finite. intros H.
  apply andb_true_iff in H. destruct H as [H Hz].
  apply andb_true_iff in H. destruct H as [Hx Hy]. auto.
Qed.

Lemma vscale_zero v : vec3_is_finite v = true ->
  F32.is_zero (vx (vscale F32.zero v)) = true
  /\ F32.is_zero (vy (vscale F32.zero v)) = true
  /\ F32.is_zero (vz (vscale F32.zero v)) = true.
Proof.
  intros H. destruct (vec3_is_finite_components v H) as (Hx & Hy & Hz).
  cbn [vscale vx vy vz]. auto using mul_zero_l.
Qed.

Lemma vadd_zero_finite v z : vec3_is_finite v = true ->
  F32.is_zero (vx z) = true /\ F32.is_zero (vy z) = true /\ F32.is_zero (vz z) = true ->
  vec3_is_finite (vadd v z) = true.
Proof.
  intros H (Zx & Zy & Zz). destruct (vec3_is_finite_components v H) as (Hx & Hy & Hz).
  unfold vec3_is_finite. cbn [vadd vx vy vz].
  rewrite !add_zero_r_finite by assumption. reflexivity.
Qed.

Lemma vadd_zero_eqb v z : vec3_is_finite v = true ->
  F32.is_zero (vx z) = true /\ F32.is_zero (vy z) = true /\ F32.is_zero (vz z) = true ->
  vec3_eqb (vadd v z) v = true.
Proof.
  intros H (Zx & Zy & Zz). destruct (vec3_is_finite_components v H) as (Hx & Hy & Hz).
  unfold vec3_eqb. cbn [vadd vx vy vz].
  rewrite !add_zero_r_eqb by assumption. reflexivity.
Qed.

(* ================================================================== *)
(** ** Facts about lists *)

Lemma last_nth (keyFrames : list KeyFrame) d :
  last keyFrames d = nth (Nat.pred (length keyFrames)) keyFrames d.
Proof.
  induction keyFrames as [|a [|b r] IH]; try reflexivity.
  change (last (a :: b :: r) d) with (last (b :: r) d). rewrite IH. reflexivity.
Qed.

Lemma last_nth_error (ks : list KeyFrame) d : ks <> [] ->
  nth_error ks (Nat.pred (length ks)) = Some (last ks d).
Proof.
  induction ks as [|a [|b r] IH]; intros H; [congruence|reflexivity|].
  change (last (a :: b :: r) d) with (last (b :: r) d).
  change (Nat.pred (length (a :: b :: r))) with (S (Nat.pred (length (b :: r)))).
  cbn [nth_error]. apply IH. discriminate.
Qed.

Lemma removelast_length {A} (l : list A) : l <> [] -> S (length (removelast l)) = length l.
Proof.
  induction l as [|a [|b r] IH]; intros H; [congruence|reflexivity|].
  change (removelast (a :: b :: r)) with (a :: removelast (b :: r)).
  cbn [length]. rewrite IH by discriminate. reflexivity.
Qed.

(* ================================================================== *)
(** ** The computed-time rule on a growing track *)

Lemma auto_times_nil unit : auto_times unit [].
Proof. split; [|split]; intros; discriminate. Qed.

Lemma auto_times_one unit f : auto_times unit [new_KeyFrame f F32.zero].
Proof.
  split; [|split].
  - intros k Hk. injection Hk as <-. reflexivity.
  - intros k Hk. discriminate.
  - intros ? ? i ? ? _ Hk1. discriminate.
Qed.

Lemma auto_times_two unit k0 f : time_ k0 = F32.zero ->
  auto_times unit [k0; new_KeyFrame f unit]
  /\ reference_recorded (distance (p_ k0) (position f)) [k0; new_KeyFrame f unit].
Proof.
  intros H0. split.
  - split; [|split].
    + intros k Hk. injection Hk as <-. exact H0.
    + intros k Hk. injection Hk as <-. reflexivity.
    + intros ? ? i a b _ _ Hi _ Hb. destruct i as [|[|i]]; [lia|discriminate|discriminate].
  - intros a b Ha Hb. injection Ha as <-. injection Hb as <-. reflexivity.
Qed.

Lemma auto_times_more unit ref ks f :
  2 <= length ks -> auto_times unit ks -> reference_recorded ref ks ->
  let back := last ks KeyFrame_default in
  let time := F32.add (time_ back)
                (F32.div (F32.mul unit (distance (p_ back) (position f))) ref) in
  auto_times unit (ks ++ [new_KeyFrame f time])
  /\ reference_recorded ref (ks ++ [new_KeyFrame f time]).
Proof.
  intros Hlen (H0 & H1 & Hc) Href back time.
  assert (Hback : nth_error ks (Nat.pred (length ks)) = Some back)
    by (apply last_nth_error; destruct ks; [simpl in Hlen; lia|discriminate]).
  assert (P0 : nth_error (ks ++ [new_KeyFrame f time]) 0 = nth_error ks 0)
    by (apply nth_error_app1; lia).
  assert (P1 : nth_error (ks ++ [new_KeyFrame f time]) 1 = nth_error ks 1)
    by (apply nth_error_app1; lia).
  split.
  - split; [|split].
    + intros k Hk. rewrite P0 in Hk. apply H0. exact Hk.
    + intros k Hk. rewrite P1 in Hk. apply H1. exact Hk.
    + intros a0 a1 i a b Ha0 Ha1 Hi Ha Hb. rewrite P0 in Ha0. rewrite P1 in Ha1.
      destruct (Nat.lt_ge_cases (S i) (length ks)) as [Hlt|Hge].
      * rewrite nth_error_app1 in Ha by lia. rewrite nth_error_app1 in Hb by lia.
        exact (Hc a0 a1 i a b Ha0 Ha1 Hi Ha Hb).
      * assert (Hi' : S i = length ks).
        { assert (S i < length (ks ++ [new_KeyFrame f time])) as Hb'
            by (apply nth_error_Some; congruence).
          rewrite length_app in Hb'. change (length [_]) with 1 in Hb'. lia. }
        rewrite nth_error_app1 in Ha by lia.
        rewrite nth_error_app2 in Hb by lia.
        replace (S i - length ks) with 0 in Hb by lia. injection Hb as <-.
        replace i with (Nat.pred (length ks)) in Ha by lia.
        rewrite Hback in Ha. injection Ha as <-.
        cbn [new_KeyFrame time_]. unfold chord_time. cbn [p_].
        rewrite <- (Href a0 a1 Ha0 Ha1). reflexivity.
  - intros a0 a1 Ha0 Ha1. rewrite P0 in Ha0. rewrite P1 in Ha1. apply Href; assumption.
Qed.

(** *** Appending key frames *)

Lemma add_keyframe_keyframes s frame time :
  keyframes_ (add_keyframe s frame time)
  = if rejects (keyframes_ s) time then keyframes_ s
    else keyframes_ s ++ [new_KeyFrame frame time].
Proof.
  unfold add_keyframe, rejects.
  destruct (negb _ && F32.geb _ _); reflexivity.
Qed.

Lemma add_keyframe_auto_keyframes ref s frame :
  exists time,
    keyframes_ (snd (add_keyframe_auto ref s frame))
    = if rejects (keyframes_ s) time then keyframes_ s
      else keyframes_ s ++ [new_KeyFrame frame time].
Proof.
  unfold add_keyframe_auto.
  destruct (keyframes_ s) as [|k0 [|k1 rest]] eqn:E; cbn [snd];
    eexists; rewrite add_keyframe_keyframes, E; reflexivity.
Qed.


Lemma add_keyframe_auto_grows ref s frame :
  length (keyframes_ s) <= length (keyframes_ (snd (add_keyframe_auto ref s frame)))
  /\ (keyframes_ s = [] -> keyframes_ (snd (add_keyframe_auto ref s frame)) <> []).
Proof.
  destruct (add_keyframe_auto_keyframes ref s frame) as [t ->]. split.
  - destruct (rejects _ _); [lia|]. rewrite length_app. lia.
  - intros ->. cbn. discriminate.
Qed.

Lemma add_keyframe_auto_step ref s frame :
  auto_times F32.one (keyframes_ s) -> reference_recorded ref (keyframes_ s) ->
  auto_times F32.one (keyframes_ (snd (add_keyframe_auto ref s frame)))
  /\ reference_recorded (fst (add_keyframe_auto ref s frame))
       (keyframes_ (snd (add_keyframe_auto ref s frame))).
Proof.
  intros Ht Hr. unfold add_keyframe_auto.
  destruct (keyframes_ s) as [|k0 [|k1 rest]] eqn:E; cbn [fst snd];
    rewrite add_keyframe_keyframes, E.
  - cbn [rejects negb andb app]. split; [apply auto_times_one|].
    intros ? ? _ H. discriminate.
  - destruct (rejects [k0] F32.one); cbn [app].
    + split; [exact Ht|]. intros ? ? _ H. discriminate.
    + apply auto_times_two. exact (proj1 Ht k0 eq_refl).
  - match goal with |- context [rejects ?l ?t] => destruct (rejects l t) end.
    + split; assumption.
    + apply (auto_times_more F32.one ref (k0 :: k1 :: rest) frame);
        [simpl; lia|assumption|assumption].
Qed.

Lemma add_keyframe_auto_prefix ref s frame i k :
  nth_error (keyframes_ s) i = Some k ->
  nth_error (keyframes_ (snd (add_keyframe_auto ref s frame))) i = Some k.
Proof.
  intros H. destruct (add_keyframe_auto_keyframes ref s frame) as [t ->].
  destruct (rejects _ _); [exact H|].
  rewrite nth_error_app1; [exact H|]. apply nth_error_Some. congruence.
Qed.

Lemma add_keyframes_auto_cons ref s f frames :
  add_keyframes_auto ref s (f :: frames)
  = add_keyframes_auto (fst (add_keyframe_auto ref s f))
                       (snd (add_keyframe_auto ref s f)) frames.
Proof.
  unfold add_keyframes_auto. cbn [fold_left fst snd].
  rewrite <- surjective_pairing. reflexivity.
Qed.

Lemma add_keyframes_auto_prefix frames : forall ref s i k,
  nth_error (keyframes_ s) i = Some k ->
  nth_error (keyframes_ (snd (add_keyframes_auto ref s frames))) i = Some k.
Proof.
  induction frames as [|f rest IH]; intros ref s i k H; [exact H|].
  rewrite add_keyframes_auto_cons. apply IH. apply add_keyframe_auto_prefix. exact H.
Qed.

Lemma add_keyframes_auto_invariant frames : forall ref s,
  auto_times F32.one (keyframes_ s) -> reference_recorded ref (keyframes_ s) ->
  auto_times F32.one (keyframes_ (snd (add_keyframes_auto ref s frames)))
  /\ reference_recorded (fst (add_keyframes_auto ref s frames))
       (keyframes_ (snd (add_keyframes_auto ref s frames))).
Proof.
  induction frames as [|f rest IH]; intros ref s Ht Hr; [split; assumption|].
  rewrite add_keyframes_auto_cons.
  destruct (add_keyframe_auto_step ref s f Ht Hr) as [Ht' Hr'].
  apply IH; assumption.
Qed.

Lemma add_keyframes_auto_from frames : forall ref s k,
  In k (keyframes_ (snd (add_keyframes_auto ref s frames))) ->
  In k (keyframes_ s) \/ exists f t, In f frames /\ k = new_KeyFrame f t.
Proof.
  induction frames as [|f rest IH]; intros ref s k H; [left; exact H|].
  rewrite add_keyframes_auto_cons in H.
  destruct (IH _ _ _ H) as [H'|(f' & t & Hin & ->)].
  - destruct (add_keyframe_auto_keyframes ref s f) as [t Ht]. rewrite Ht in H'.
    destruct (rejects _ _); [left; exact H'|].
    apply in_app_or in H'. destruct H' as [H'|[<-|[]]]; [left; exact H'|].
    right. exists f, t. split; [left; reflexivity|reflexivity].
  - right. exists f', t. split; [right; exact Hin|reflexivity].
Qed.


(* ================================================================== *)
(** ** The track that [smooth] makes of the frames *)

Lemma as_key_frames_loop_times interval frames : forall acc ref,
  auto_times interval acc -> reference_recorded ref acc ->
  auto_times interval (as_key_frames_loop interval frames acc ref)
  /\ length (as_key_frames_loop interval frames acc ref) = length acc + length frames.
Proof.
  induction frames as [|f rest IH]; intros acc ref Ht Hr; cbn [as_key_frames_loop].
  - split; [exact Ht|simpl; lia].
  - destruct acc as [|k0 [|k1 acc']].
    + destruct (IH [new_KeyFrame f F32.zero] ref (auto_times_one _ _)) as [IH1 IH2].
      { intros ? ? _ H; discriminate. }
      split; [exact IH1|rewrite IH2; simpl; lia].
    + destruct (auto_times_two interval k0 f (proj1 Ht k0 eq_refl)) as [Ht' Hr'].
      cbn [app]. destruct (IH _ _ Ht' Hr') as [IH1 IH2].
      split; [exact IH1|rewrite IH2; simpl; lia].
    + destruct (auto_times_more interval ref (k0 :: k1 :: acc') f ltac:(simpl; lia) Ht Hr)
        as [Ht' Hr'].
      destruct (IH _ _ Ht' Hr') as [IH1 IH2].
      split; [exact IH1|rewrite IH2, length_app; simpl; lia].
Qed.

Lemma as_key_frames_times s frames :
  auto_times (sample_interval s) (as_key_frames s frames)
  /\ length (as_key_frames s frames) = length frames.
Proof.
  unfold as_key_frames.
  destruct (as_key_frames_loop_times (sample_interval s) frames [] F32.zero
              (auto_times_nil _)) as [H1 H2].
  - intros ? ? H; discriminate.
  - split; [exact H1|exact H2].
Qed.

(** [smooth] takes a zero duration of the new track for degenerate only
    when the duration of the track of the object is zero or a NaN too. *)
Lemma smooth_detects s frames :
  F32.is_zero (as_key_frames_duration s frames) = true ->
  F32.is_nan (smooth_ratio s frames)
  = F32.is_nan (duration s) || F32.is_zero (duration s).
Proof. intros H. unfold smooth_ratio. apply div_by_zero_nan. exact H. Qed.

(* ================================================================== *)
(** ** Reading blocks *)

Lemma read_blocks_grows file : forall n j ref s,
  length (keyframes_ s) <= length (keyframes_ (snd (read_blocks file n j ref s))).
Proof.
  induction n as [|n IH]; intros j ref s; cbn [read_blocks]; [cbn; lia|].
  destruct (add_keyframe_auto ref s (frame_block file j)) as [ref' s'] eqn:E.
  pose proof (proj1 (add_keyframe_auto_grows ref s (frame_block file j))) as H.
  rewrite E in H. cbn [snd] in H. specialize (IH (S j) ref' s'). lia.
Qed.

Lemma read_blocks_loads file n j ref s :
  keyframes_ s = [] ->
  (keyframes_ (snd (read_blocks file n j ref s)) <> [] <-> n <> 0).
Proof.
  intros He. destruct n as [|n]; cbn [read_blocks].
  - cbn [snd]. rewrite He. split; congruence.
  - split; [discriminate|]. intros _.
    destruct (add_keyframe_auto ref s (frame_block file j)) as [ref' s'] eqn:E.
    pose proof (proj2 (add_keyframe_auto_grows ref s (frame_block file j)) He) as H.
    rewrite E in H. cbn [snd] in H.
    pose proof (read_blocks_grows file n (S j) ref' s') as Hg.
    destruct (keyframes_ s'); [congruence|].
    destruct (keyframes_ (snd (read_blocks file n (S j) ref' s'))); [simpl in Hg; lia|discriminate].
Qed.

(* ================================================================== *)
(** ** The bracket search *)

Lemma scan_backward_begin time keyFrames : scan_backward time keyFrames 0 = 0.
Proof. simpl. destruct (F32.gtb _ _); reflexivity. Qed.

(** The forward scan stops at an offset [k] into [rest]: every key frame
    it passed is earlier than [time], and it stopped on a key frame that
    is not earlier, or on the last one. *)
Lemma scan_forward_spec time rest : rest <> [] -> forall i,
  exists k, scan_forward time rest i = i + k /\ k < length rest
    /\ (forall j, j < k -> F32.ltb (time_at rest j) time = true)
    /\ (F32.ltb (time_at rest k) time = false \/ k = Nat.pred (length rest)).
Proof.
  induction rest as [|kf rest' IH]; [congruence|]. intros _ i.
  cbn [scan_forward].
  destruct (F32.ltb (time_ kf) time) eqn:Hlt.
  - destruct rest' as [|kf' rest''].
    + exists 0. split; [lia|]. split; [simpl; lia|]. split; [intros j Hj; lia|].
      right; reflexivity.
    + destruct (IH ltac:(discriminate) (S i)) as (k & Hk & Hlen & Hpass & Hstop).
      exists (S k). split; [rewrite Hk; lia|]. split; [simpl in *; lia|]. split.
      * intros [|j] Hj; [exact Hlt|]. apply (Hpass j); lia.
      * destruct Hstop as [Hstop|Hstop]; [left; exact Hstop|right; simpl in *; lia].
  - exists 0. split; [lia|]. split; [simpl; lia|]. split; [intros j Hj; lia|].
    left; exact Hlt.
Qed.

Lemma times_increasing_lt keyFrames : times_increasing keyFrames = true ->
  forall i j, i < j -> j < length keyFrames ->
  F32.ltb (time_at keyFrames i) (time_at keyFrames j) = true.
Proof.
  induction keyFrames as [|a rest IH]; intros Hs i j Hij Hj; [simpl in Hj; lia|].
  destruct rest as [|b rest'].
  - simpl in Hj; lia.
  - cbn [times_increasing] in Hs. apply andb_true_iff in Hs. destruct Hs as [Hab Hrest].
    destruct j as [|j]; [lia|]. simpl in Hj.
    destruct i as [|i].
    + destruct j as [|j]; [exact Hab|].
      apply ltb_trans with (time_ b); [exact Hab|].
      apply (IH Hrest 0 (S j)); simpl; lia.
    + apply (IH Hrest i j); simpl; lia.
Qed.

Lemma times_increasing_not_nan keyFrames : times_increasing keyFrames = true ->
  2 <= length keyFrames -> forall i, i < length keyFrames ->
  F32.is_nan (time_at keyFrames i) = false.
Proof.
  intros Hs Hn i Hi.
  destruct i as [|i].
  - apply (ltb_not_nan _ (time_at keyFrames 1)). apply times_increasing_lt; auto; lia.
  - apply (ltb_not_nan (time_at keyFrames 0)). apply times_increasing_lt; auto; lia.
Qed.

Lemma spline_alpha_same time k : F32.is_finite (time_ k) = true ->
  spline_alpha time k k = F32.zero.
Proof. intros H. unfold spline_alpha. rewrite (sub_diag _ H). reflexivity. Qed.

Lemma bracket_at_first keyFrames : keyFrames <> [] ->
  exists r3, getRelatedKeyFramesForTime (time_at keyFrames 0) keyFrames = Some (0, 0, 0, r3).
Proof.
  intros Hne. unfold getRelatedKeyFramesForTime.
  destruct keyFrames as [|k0 rest]; [congruence|].
  rewrite scan_backward_begin. cbn [skipn scan_forward].
  unfold time_at. cbn [nth]. rewrite ltb_irrefl. cbn. eexists; reflexivity.
Qed.

Lemma bracket_at_last keyFrames : keyFrames <> [] -> times_increasing keyFrames = true ->
  let n := Nat.pred (length keyFrames) in
  exists r0, getRelatedKeyFramesForTime (time_at keyFrames n) keyFrames = Some (r0, n, n, n).
Proof.
  intros Hne Hs. cbv zeta. unfold getRelatedKeyFramesForTime.
  destruct keyFrames as [|kf0 rest0] eqn:E; [congruence|]. rewrite <- E in *. clear E.
  rewrite scan_backward_begin. cbn [skipn].
  set (n := Nat.pred (length keyFrames)).
  destruct (scan_forward_spec (time_at keyFrames n) keyFrames Hne 0)
    as (k & Hk & Hlen & Hpass & Hstop).
  rewrite Hk. cbn [Nat.add].
  assert (k = n) as ->.
  { destruct Hstop as [Hstop|Hstop]; [|exact Hstop].
    destruct (Nat.eq_dec k n) as [?|Hd]; [assumption|].
    rewrite times_increasing_lt in Hstop; [discriminate|assumption|unfold n; lia|unfold n; lia]. }
  change (time_ (nth n keyFrames KeyFrame_default)) with (time_at keyFrames n).
  rewrite ltb_irrefl, andb_false_r, Nat.eqb_refl. cbn [negb]. eexists; reflexivity.
Qed.

(* ================================================================== *)
(** ** The two passes of [updateModifiedFrameValues] *)

Lemma flipOrientationIfNeeded_dot prev kf :
  dot_is_nonnegative prev (q_ (flipOrientationIfNeeded prev kf)).
Proof.
  unfold flipOrientationIfNeeded, dot_is_nonnegative.
  destruct (F32.ltb (quat_dot prev (q_ kf)) F32.zero) eqn:Hlt; cbn [q_].
  - destruct (negated_of_negative _ _ (quat_dot_negate prev (q_ kf)) Hlt) as [H1 H2].
    split; [exact H1|intros _; exact H2].
  - split; [exact Hlt|]. intros Hnan.
    apply ltb_false_leb; [exact Hnan|reflexivity|exact Hlt].
Qed.

Lemma flip_pass_chain keyFrames : forall prevQ,
  chain_nonnegative prevQ (flip_pass prevQ keyFrames).
Proof.
  induction keyFrames as [|kf rest IH]; intros prevQ; cbn [flip_pass chain_nonnegative].
  - exact I.
  - split; [apply flipOrientationIfNeeded_dot|apply IH].
Qed.

Lemma chain_nonnegative_nth l : forall prevQ, chain_nonnegative prevQ l ->
  forall i a b, nth_error l i = Some a -> nth_error l (S i) = Some b ->
  dot_is_nonnegative (q_ a) (q_ b).
Proof.
  induction l as [|kf rest IH]; intros prevQ Hc i a b Ha Hb.
  - destruct i; discriminate.
  - destruct Hc as [_ Hrest]. destruct i as [|i].
    + simpl in Ha. injection Ha as <-. destruct rest as [|kf' rest']; [discriminate|].
      simpl in Hb. injection Hb as <-. exact (proj1 Hrest).
    + exact (IH _ Hrest i a b Ha Hb).
Qed.

Lemma flip_pass_length l : forall prevQ, length (flip_pass prevQ l) = length l.
Proof. induction l as [|kf rest IH]; intros prevQ; simpl; [reflexivity|]. rewrite IH. reflexivity. Qed.

(* ================================================================== *)
(** ** The sampling loop *)

Lemma sample_times_spaced last interval : forall fuel time times,
  sample_times fuel last interval time = Some times ->
  (forall t rest, times = t :: rest -> t = time)
  /\ (forall k t t', nth_error times k = Some t -> nth_error times (S k) = Some t' ->
        t' = F32.add t interval).
Proof.
  induction fuel as [|fuel IH]; intros time times H; [discriminate|].
  cbn [sample_times] in H.
  destruct (F32.ltb time (F32.add last interval)).
  - destruct (sample_times fuel last interval (F32.add time interval)) as [rest|] eqn:E;
      [|discriminate].
    injection H as <-. destruct (IH _ _ E) as [Hhd Hsp].
    split; [intros t r Heq; injection Heq as <- _; reflexivity|].
    intros [|k] t t' Ht Ht'.
    + cbn in Ht, Ht'. injection Ht as <-. destruct rest as [|t1 r]; [discriminate|].
      cbn in Ht'. injection Ht' as <-. exact (Hhd t1 r eq_refl).
    + exact (Hsp k t t' Ht Ht').
  - injection H as <-. split; [intros; discriminate|]. intros [|k]; discriminate.
Qed.

Section WithLib.
Context {M : MathLib}.

Lemma tangent_pass_length l : forall prev, length (tangent_pass prev l) = length l.
Proof. induction l as [|kf rest IH]; intros prev; simpl; [reflexivity|]. rewrite IH. reflexivity. Qed.

Lemma tangent_pass_q l : forall prev i a, nth_error (tangent_pass prev l) i = Some a ->
  exists a0, nth_error l i = Some a0 /\ q_ a = q_ a0 /\ p_ a = p_ a0 /\ time_ a = time_ a0.
Proof.
  induction l as [|kf rest IH]; intros prev i a Ha.
  - destruct i; discriminate.
  - destruct i as [|i]; cbn [tangent_pass nth_error] in *.
    + injection Ha as <-. exists kf. repeat split.
    + eapply IH; eassumption.
Qed.

Lemma sample_loop_times last interval keyFrames : forall fuel time frames,
  sample_loop fuel last interval keyFrames time = Some frames ->
  exists times, sample_times fuel last interval time = Some times
    /\ Forall2 (fun t f => frame_at_time t keyFrames = Some f) times frames.
Proof.
  induction fuel as [|fuel IH]; intros time frames H; [discriminate|].
  cbn [sample_loop sample_times] in *.
  destruct (F32.ltb time (F32.add last interval)).
  - destruct (frame_at_time time keyFrames) as [f|] eqn:Ef; [|discriminate].
    destruct (sample_loop fuel last interval keyFrames (F32.add time interval)) as [rest|] eqn:E;
      [|discriminate].
    injection H as <-. destruct (IH _ _ E) as (ts & Hts & Hall).
    rewrite Hts. exists (time :: ts). split; [reflexivity|]. constructor; assumption.
  - injection H as <-. exists []. split; [reflexivity|constructor].
Qed.

(** A step that leaves the time where it is never leaves the loop. *)
Lemma sample_loop_stuck last interval keyFrames time :
  F32.add time interval = time ->
  F32.ltb time (F32.add last interval) = true ->
  forall fuel, sample_loop fuel last interval keyFrames time = None.
Proof.
  intros Hstay Hlt. induction fuel as [|fuel IH]; [reflexivity|].
  cbn [sample_loop]. rewrite Hlt, Hstay, IH.
  destruct (frame_at_time time keyFrames); reflexivity.
Qed.

(** When both ends of the bracket are the key frame [k], the spline is at
    the position of [k]. *)
Lemma frame_at_key_frame time keyFrames r0 r r3 k :
  getRelatedKeyFramesForTime time keyFrames = Some (r0, r, r, r3) ->
  nth r keyFrames KeyFrame_default = k ->
  end_point_finite k ->
  exists f, frame_at_time time keyFrames = Some f
            /\ vec3_eqb (position f) (p_ k) = true.
Proof.
  intros Hget Hk (Ht & Hp & Htg & Hv1 & Hv2).
  unfold frame_at_time. rewrite Hget, Hk.
  destruct (computeSpline k k) as [v1 v2] eqn:Hs. cbn [fst snd] in Hv1, Hv2.
  rewrite (spline_alpha_same time k Ht).
  eexists. split; [reflexivity|]. cbn [position].
  apply vadd_zero_eqb; [exact Hp|]. apply vscale_zero.
  apply vadd_zero_finite; [exact Htg|]. apply vscale_zero.
  apply vadd_zero_finite; [exact Hv1|]. apply vscale_zero. exact Hv2.
Qed.

(** What [smooth] does when the new track has a zero duration. *)
Lemma smooth_on_zero_duration (s : KeyFrameInterpolator) (frames : list Frame) :
  2 <= length frames ->
  F32.is_zero (as_key_frames_duration s frames) = true ->
  (F32.is_nan (duration s) || F32.is_zero (duration s) = true ->
   forall fuel, smooth fuel s frames = Some (frames, emit (LogError "duration is 0") s))
  /\ (F32.is_nan (duration s) || F32.is_zero (duration s) = false ->
      forall fuel, smooth fuel s frames
        = match do_interpolate fuel s
                  (map (fun f => set_time (F32.mul (time_ f) (smooth_ratio s frames)) f)
                       (as_key_frames s frames)) with
          | Some (frames', _) => Some (frames', s)
          | None => None
          end).
Proof.
  intros Hlen Hz. pose proof (smooth_detects s frames Hz) as Hd.
  assert (Hn : Nat.ltb (length frames) 2 = false) by (apply Nat.ltb_ge; exact Hlen).
  split; intros Hc fuel; unfold smooth; rewrite Hn, Hd, Hc; reflexivity.
Qed.
Lemma start_interpolation_empty fuel s : keyframes_ s = [] -> start_interpolation fuel s = Some s.
Proof. intros H. unfold start_interpolation. rewrite H. reflexivity. Qed.
Lemma updateModifiedFrameValues_some keyFrames : keyFrames <> [] ->
  exists keyFrames', updateModifiedFrameValues keyFrames = Some keyFrames'
                     /\ length keyFrames' = length keyFrames.
Proof.
  intros Hne. unfold updateModifiedFrameValues.
  destruct keyFrames as [|front rest]; [congruence|].
  pose proof (flip_pass_length (front :: rest) (q_ front)) as Hl.
  destruct (flip_pass (q_ front) (front :: rest)) as [|front' rest']; [discriminate|].
  eexists. split; [reflexivity|]. rewrite tangent_pass_length. exact Hl.
Qed.

End WithLib.

(* ================================================================== *)
(** ** C1: the sampling step *)

Section C1.
Context {M : MathLib}.

(** C1, as the code has it.  The times at which [do_interpolate]
    evaluates the spline start at [firstTime()] and each is the one before
    plus [interpolation_speed() * interpolation_period() / 1000], the
    period being [1000 / fps] milliseconds: the speed multiplies the step,
    it does not divide it.  In the track that [smooth] makes of the cached
    frames the first key frame is at 0, the second at that same step, and
    each later one follows the chord rule with that step as unit. *)
Theorem C1_sampling_step (fuel : nat) (s : KeyFrameInterpolator)
  (keyFrames keyFrames' : list KeyFrame) (frames : list Frame) :
  do_interpolate fuel s keyFrames = Some (frames, keyFrames') ->
  let step := F32.div (F32.mul (interpolation_speed_ s)
                               (F32.of_Z (Z.quot 1000 (fps_ s))))
                      (F32.of_Z 1000) in
  (exists times,
      (keyFrames <> [] ->
       sample_times fuel (lastTime s) step (firstTime s) = Some times)
      /\ Forall2 (fun t f => frame_at_time t keyFrames' = Some f) times frames
      /\ (forall t rest, times = t :: rest -> t = firstTime s)
      /\ (forall k t t', nth_error times k = Some t -> nth_error times (S k) = Some t' ->
            t' = F32.add t step))
  /\ (forall cache, auto_times step (as_key_frames s cache)
                    /\ length (as_key_frames s cache) = length cache).
Proof.
  intros H step. split; [|intros cache; apply as_key_frames_times].
  unfold do_interpolate in H.
  destruct (updateModifiedFrameValues keyFrames) as [kfs|] eqn:Eu.
  - destruct (sample_loop fuel (lastTime s) (sample_interval s) kfs (firstTime s))
      as [fr|] eqn:E; [|discriminate].
    injection H as <- <-.
    destruct (sample_loop_times _ _ _ _ _ _ E) as (times & Hts & Hall).
    destruct (sample_times_spaced _ _ _ _ _ Hts) as [Hhd Hsp].
    exists times. split; [intros _; exact Hts|].
    split; [exact Hall|]. split; [exact Hhd|exact Hsp].
  - injection H as <- <-. exists [].
    split; [destruct keyFrames; [congruence|discriminate]|].
    split; [constructor|].
    split; [intros; discriminate|intros [|k]; discriminate].
Qed.
End C1.

Lemma C1_sampling_step_witness :
  exists frames keyFrames' times,
    do_interpolate (M := example_lib) 10 slow (keyframes_ slow) = Some (frames, keyFrames')
    /\ length frames = 3
    /\ Forall2 (fun t f => frame_at_time (M := example_lib) t keyFrames' = Some f)
               times frames
    /\ (forall k t t', nth_error times k = Some t -> nth_error times (S k) = Some t' ->
          t' = F32.add t (sample_interval slow)).
Proof.
  destruct (do_interpolate (M := example_lib) 10 slow (keyframes_ slow))
    as [[frames kfs']|] eqn:E.
  - destruct (C1_sampling_step (M := example_lib) 10 slow _ _ _ E)
      as [(times & _ & Hall & _ & Hsp) _].
    exists frames, kfs', times. split; [reflexivity|].
    split; [vm_compute in E; injection E as <- _; reflexivity|].
    split; [exact Hall|exact Hsp].
  - vm_compute in E. discriminate.
Defined.

(** At 30 frames per second and twice the speed the step of the code is
    2 * 33 / 1000 = 0.066 s, not (1 / 30) / 2 = 0.0167 s; so are the
    second sampling time and the time of the second key frame that
    [smooth] makes.  A period that were not truncated to an [int] would
    not change that. *)
Lemma C1_counterexample :
  fps_ double_speed = 30%Z
  /\ interpolation_speed_ double_speed = F32.of_Z 2
  /\ sample_interval double_speed <> spec_sample_interval 30 (F32.of_Z 2)
  /\ (exists t0 t1 rest,
        sample_times 100 (lastTime double_speed) (sample_interval double_speed)
                     (firstTime double_speed) = Some (t0 :: t1 :: rest)
        /\ t1 <> F32.add t0 (spec_sample_interval 30 (F32.of_Z 2)))
  /\ time_at (as_key_frames double_speed two_frames) 1
     <> spec_sample_interval 30 (F32.of_Z 2)
  /\ F32.div (F32.mul (F32.of_Z 2) (F32.div (F32.of_Z 1000) (F32.of_Z 30))) (F32.of_Z 1000)
     <> spec_sample_interval 30 (F32.of_Z 2).
Proof.
  split; [reflexivity|]. split; [reflexivity|].
  split; [vm_compute; discriminate|].
  split; [do 3 eexists; split; [vm_compute; reflexivity|vm_compute; discriminate]|].
  split; vm_compute; discriminate.
Qed.

(* ================================================================== *)
(** ** [smooth] on its own, with a step of zero *)

Section SmoothAlone.
Context {M : MathLib}.

(** [smooth] taken on its own, on an object with a speed of zero.  The
    track that it makes of two frames has the duration zero, while the
    track of the object lasts one unit: the ratio is 1 / 0, an infinity
    and not a NaN, and the test [is_nan(ratio)] lets it through.
    [interpolate()] never calls [smooth] so: with a step of zero
    [do_interpolate] returns no frame. *)
Example smooth_alone_zero_step :
  2 <= length two_frames
  /\ as_key_frames_duration stalled two_frames = F32.zero
  /\ duration stalled = F32.one
  /\ smooth_ratio stalled two_frames = F32.infinity
  /\ F32.is_nan (smooth_ratio stalled two_frames) = false
  /\ forall fuel,
       smooth fuel stalled two_frames = None
       /\ smooth fuel stalled two_frames
          <> Some (two_frames, emit (LogError "duration is 0") stalled).
Proof.
  split; [simpl; lia|]. do 4 (split; [vm_compute; reflexivity|]).
  intros fuel.
  assert (H : smooth fuel stalled two_frames = None).
  { unfold smooth. change (Nat.ltb (length two_frames) 2) with false. cbv iota.
    replace (F32.is_nan (smooth_ratio stalled two_frames)) with false
      by (vm_compute; reflexivity).
    unfold do_interpolate.
    match goal with |- context [updateModifiedFrameValues ?k] =>
      destruct (updateModifiedFrameValues_some k) as (kfs & -> & _) end.
    - intros Hnil. apply (f_equal (@length KeyFrame)) in Hnil.
      rewrite length_map, (proj2 (as_key_frames_times stalled two_frames)) in Hnil.
      discriminate.
    - rewrite sample_loop_stuck; [reflexivity|vm_compute; reflexivity|vm_compute; reflexivity]. }
  split; [exact H|rewrite H; discriminate].
Qed.
End SmoothAlone.

(* ================================================================== *)
(** ** C3: an append that is refused *)

(** C3, as the code has it.  When the track is not empty and the time is
    not after that of the last key frame, [add_keyframe(frame, time)]
    leaves the key frames as they are and logs the error; but the
    statements after the test run all the same: the path is marked
    invalid, the index at which playback resumes is set to 0 and playback
    is stopped.  The other members are unchanged. *)
Theorem C3_rejected_append (s : KeyFrameInterpolator) (frame : Frame) (time : F32.float) :
  keyframes_ s <> [] ->
  F32.leb time (lastTime s) = true ->
  let s' := add_keyframe s frame time in
  keyframes_ s' = keyframes_ s
  /\ events_ s' = events_ s ++ [LogError "time is not monotone"]
  /\ pathIsValid_ s' = false
  /\ last_stopped_index_ s' = 0%Z
  /\ interpolation_started_ s' = false
  /\ timer_ s' = Timer_stop (timer_ s)
  /\ fps_ s' = fps_ s
  /\ interpolation_speed_ s' = interpolation_speed_ s
  /\ interpolated_path_ s' = interpolated_path_ s
  /\ path_drawable_ s' = path_drawable_ s
  /\ cameras_drawable_ s' = cameras_drawable_ s.
Proof.
  intros Hne Hle. cbv zeta. unfold add_keyframe.
  unfold lastTime in Hle. destruct (keyframes_ s) as [|k ks] eqn:E; [congruence|].
  unfold F32.geb. rewrite Hle. cbn [negb andb].
  cbn. rewrite E. repeat split.
Qed.


Lemma C3_rejected_append_witness :
  keyframes_ playing = keyframes_ (add_keyframe playing (pose 5 5 5) F32.one)
  /\ pathIsValid_ (add_keyframe playing (pose 5 5 5) F32.one) = false.
Proof.
  destruct (C3_rejected_append playing (pose 5 5 5) F32.one) as (H1 & _ & H2 & _).
  - vm_compute. discriminate.
  - vm_compute. reflexivity.
  - split; [symmetry; exact H1|exact H2].
Defined.

(** The object [playing] has a valid path, is running and resumes at
    index 1; after the refused append of the time 1 (its last key frame
    is at 1) none of the three is as it was. *)
Lemma C3_counterexample :
  keyframes_ playing <> []
  /\ F32.leb F32.one (lastTime playing) = true
  /\ pathIsValid_ playing = true
  /\ pathIsValid_ (add_keyframe playing (pose 5 5 5) F32.one) = false
  /\ last_stopped_index_ playing = 1%Z
  /\ last_stopped_index_ (add_keyframe playing (pose 5 5 5) F32.one) = 0%Z
  /\ interpolation_started_ playing = true
  /\ interpolation_started_ (add_keyframe playing (pose 5 5 5) F32.one) = false.
Proof. vm_compute. repeat split; discriminate. Qed.

(* ================================================================== *)
(** ** C4: starting while running *)

Section C4.
Context {M : MathLib}.

(** C4, as the code has it.  On a track that is not empty every call of
    [start_interpolation()] that returns has handed one more playback loop
    to the timer and lowered its stop flag, whether or not
    [interpolation_started_] was already set: nothing in it looks at the
    running state.  With a valid path the call always returns; with a
    path that is not valid it first computes the path and returns exactly
    when [interpolate()] does. *)
Theorem C4_start_always_launches (fuel : nat) (s : KeyFrameInterpolator) :
  keyframes_ s <> [] ->
  (pathIsValid_ s = true ->
   start_interpolation fuel s
   = Some (with_timer (Timer_set_timeout (timer_ s)) (with_started true s)))
  /\ (pathIsValid_ s = false ->
      start_interpolation fuel s
      = match interpolate fuel s with
        | Some s1 => Some (with_timer (Timer_set_timeout (timer_ s1)) (with_started true s1))
        | None => None
        end)
  /\ (forall s', start_interpolation fuel s = Some s' ->
        launched_ (timer_ s') = S (launched_ (timer_ s))
        /\ stopped_ (timer_ s') = false
        /\ interpolation_started_ s' = true).
Proof.
  intros Hne. unfold start_interpolation.
  destruct (keyframes_ s) as [|k ks] eqn:E; [congruence|]. split; [|split].
  - intros ->. reflexivity.
  - intros ->. reflexivity.
  - intros s' H.
    assert (Hi : forall s1, interpolate fuel s = Some s1 -> timer_ s1 = timer_ s).
    { intros s1. unfold interpolate. destruct (pathIsValid_ s); [intros [= <-]; reflexivity|].
      set (s0 := if Nat.ltb 2 (length (keyframes_ s)) then _ else s).
      assert (Hs0 : timer_ s0 = timer_ s) by (unfold s0; destruct (Nat.ltb _ _); reflexivity).
      destruct (do_interpolate fuel s0 (keyframes_ s0)) as [[frames kfs']|]; [|discriminate].
      set (s3 := if Nat.ltb 2 (length (keyframes_ s)) then _ else _).
      assert (Hs3 : timer_ s3 = timer_ s) by (unfold s3; destruct (Nat.ltb _ _); exact Hs0).
      unfold smooth. destruct (Nat.ltb (length (interpolated_path_ s3)) 2).
      - intros [= <-]. exact Hs3.
      - destruct (F32.is_nan _).
        + intros [= <-]. exact Hs3.
        + destruct (do_interpolate fuel s3 _) as [[f' k']|]; [|discriminate].
          intros [= <-]. exact Hs3. }
    destruct (pathIsValid_ s) eqn:Ev.
    + injection H as <-. repeat split.
    + destruct (interpolate fuel s) as [s1|] eqn:Ei; [|discriminate].
      injection H as <-. cbn. rewrite (Hi s1 eq_refl). repeat split.
Qed.

End C4.

Lemma C4_start_always_launches_witness :
  exists s', start_interpolation (M := example_lib) 10 playing = Some s'
             /\ launched_ (timer_ s') = S (launched_ (timer_ playing)).
Proof.
  destruct (C4_start_always_launches (M := example_lib) 10 playing) as [H1 [_ H2]].
  - vm_compute. discriminate.
  - eexists. split; [apply H1; vm_compute; reflexivity|].
    apply (H2 _ (H1 ltac:(vm_compute; reflexivity))).
Defined.

(** The object [playing] is running, with one loop handed to the timer.
    After [start_interpolation()] there are two; run one after the other
    they write five frames to the driven frame, for a path of three. *)
Lemma C4_counterexample :
  interpolation_started_ playing = true
  /\ launched_ (timer_ playing) = 1
  /\ length (interpolated_path_ playing) = 3
  /\ exists s', start_interpolation (M := example_lib) 10 playing = Some s'
                /\ launched_ (timer_ s') = 2
                /\ length (sink_writes (playback_callback (playback_callback s'))) = 5.
Proof.
  do 3 (split; [vm_compute; reflexivity|]).
  eexists. split; [vm_compute; reflexivity|]. split; vm_compute; reflexivity.
Qed.

(* ================================================================== *)
(** ** C5: loading key frames *)

(** C5, as the code has it.  When the file cannot be opened
    [read_keyframes] returns false and logs the error, and the object is
    otherwise as it was: the track is not cleared, it keeps its key
    frames.  A return of true means that the file was opened, announced at
    least one key frame, and that the track, cleared and filled from the
    file, is not empty; and every opened file that announces at least one
    key frame gives true. *)
Theorem C5_read_keyframes (fs : FileSystem) (ref : F32.float)
  (s : KeyFrameInterpolator) (file_name : String.string) :
  (fs file_name = None ->
     read_keyframes fs ref s file_name
     = (false, ref,
        emit (LogError (String.append "unable to open '" (String.append file_name "'"))) s)
     /\ keyframes_ (snd (read_keyframes fs ref s file_name)) = keyframes_ s)
  /\ (fst (fst (read_keyframes fs ref s file_name)) = true ->
        keyframes_ (snd (read_keyframes fs ref s file_name)) <> []
        /\ exists file, fs file_name = Some file /\ (0 < num_key_frames file)%Z)
  /\ (forall file, fs file_name = Some file -> (0 < num_key_frames file)%Z ->
        fst (fst (read_keyframes fs ref s file_name)) = true).
Proof.
  unfold read_keyframes.
  destruct (fs file_name) as [file|].
  - destruct (read_blocks file (Z.to_nat (num_key_frames file)) 0 ref (delete_path s))
      as [ref' s'] eqn:E.
    pose proof (read_blocks_loads file (Z.to_nat (num_key_frames file)) 0 ref (delete_path s)
                  eq_refl) as H.
    rewrite E in H. cbn [fst snd] in *.
    split; [discriminate|]. split.
    + intros Hok. destruct (keyframes_ s') as [|k ks]; [discriminate|].
      split; [discriminate|]. exists file. split; [reflexivity|].
      assert (Z.to_nat (num_key_frames file) <> 0) by (apply H; discriminate). lia.
    + intros f [= <-] Hpos.
      destruct (keyframes_ s') as [|k ks]; [|reflexivity].
      exfalso. apply (proj2 H); [lia|reflexivity].
  - cbn [fst snd]. split; [intros _; split; reflexivity|]. split; [discriminate|].
    intros f Hf. discriminate.
Qed.

(** The track of [playing] has two key frames; they are still there after
    the load of a file that cannot be opened. *)
Lemma C5_counterexample :
  no_file "path.kf" = None
  /\ keyframes_ playing <> []
  /\ fst (fst (read_keyframes no_file F32.zero playing "path.kf")) = false
  /\ keyframes_ (snd (read_keyframes no_file F32.zero playing "path.kf")) <> [].
Proof. vm_compute. repeat split; discriminate. Qed.

Example read_keyframes_two_blocks :
  fst (fst (read_keyframes one_file F32.zero playing "path.kf")) = true
  /\ length (keyframes_ (snd (read_keyframes one_file F32.zero playing "path.kf"))) = 2.
Proof. vm_compute. split; reflexivity. Qed.

(* ================================================================== *)
(** ** C6: the spline at the first and at the last time *)

Section C6.
Context {M : MathLib}.

(** C6, as the code has it.  On a track of at least two key frames with
    strictly increasing times, the bracket found for the time of the first
    (last) key frame is that key frame twice; when its time, position,
    tangent and spline coefficients are finite, [alpha] is 0 there and the
    position of the frame computed equals ([==]) the position of the key
    frame. *)
Theorem C6_end_points (keyFrames : list KeyFrame) :
  2 <= length keyFrames -> times_increasing keyFrames = true ->
  let n := Nat.pred (length keyFrames) in
  let first := hd KeyFrame_default keyFrames in
  let final := last keyFrames KeyFrame_default in
  (exists r3, getRelatedKeyFramesForTime (time_ first) keyFrames = Some (0, 0, 0, r3))
  /\ (exists r0, getRelatedKeyFramesForTime (time_ final) keyFrames = Some (r0, n, n, n))
  /\ (end_point_finite first ->
      spline_alpha (time_ first) first first = F32.zero
      /\ exists f, frame_at_time (time_ first) keyFrames = Some f
                   /\ vec3_eqb (position f) (p_ first) = true)
  /\ (end_point_finite final ->
      spline_alpha (time_ final) final final = F32.zero
      /\ exists f, frame_at_time (time_ final) keyFrames = Some f
                   /\ vec3_eqb (position f) (p_ final) = true).
Proof.
  intros Hn Hs n first final.
  assert (Hne : keyFrames <> []) by (destruct keyFrames; [simpl in Hn; lia|discriminate]).
  assert (Hfirst : nth 0 keyFrames KeyFrame_default = first)
    by (unfold first; destruct keyFrames; [congruence|reflexivity]).
  assert (Hlast : nth n keyFrames KeyFrame_default = final)
    by (unfold final, n; symmetry; apply last_nth).
  destruct (bracket_at_first keyFrames Hne) as [r3 Hget1].
  destruct (bracket_at_last keyFrames Hne Hs) as [r0 Hget2]. fold n in Hget2.
  unfold time_at in Hget1, Hget2. rewrite Hfirst in Hget1. rewrite Hlast in Hget2.
  split; [exists r3; exact Hget1|]. split; [exists r0; exact Hget2|].
  split; intros Hfin.
  - split; [apply spline_alpha_same; exact (proj1 Hfin)|].
    exact (frame_at_key_frame _ _ _ _ _ _ Hget1 Hfirst Hfin).
  - split; [apply spline_alpha_same; exact (proj1 Hfin)|].
    exact (frame_at_key_frame _ _ _ _ _ _ Hget2 Hlast Hfin).
Qed.
End C6.

Lemma C6_end_points_witness :
  exists f,
    frame_at_time (M := example_lib)
      (time_ (last (keyframes_ two_key_frames) KeyFrame_default))
      (keyframes_ two_key_frames) = Some f
    /\ vec3_eqb (position f)
                (p_ (last (keyframes_ two_key_frames) KeyFrame_default)) = true.
Proof.
  destruct (C6_end_points (M := example_lib) (keyframes_ two_key_frames))
    as (_ & _ & _ & H).
  - vm_compute. lia.
  - vm_compute. reflexivity.
  - apply H. repeat split; vm_compute; reflexivity.
Defined.

(** A first key frame at minus infinity (accepted by [add_keyframe] on an
    empty track): the bracket at that time has [dt] = -inf - -inf, a NaN,
    which is not below epsilon; [alpha] is a NaN and so is the position. *)
Lemma C6_counterexample :
  2 <= length track_from_minus_infinity
  /\ times_increasing track_from_minus_infinity = true
  /\ exists track f,
       updateModifiedFrameValues (M := example_lib) track_from_minus_infinity = Some track
       /\ times_increasing track = true
       /\ frame_at_time (M := example_lib) (time_ (hd KeyFrame_default track)) track = Some f
       /\ position f = mkVec3 F32.nan F32.nan F32.nan
       /\ vec3_eqb (position f) (p_ (hd KeyFrame_default track)) = false.
Proof.
  split; [vm_compute; lia|]. split; [vm_compute; reflexivity|].
  do 2 eexists. split; [vm_compute; reflexivity|].
  split; [vm_compute; reflexivity|]. split; [vm_compute; reflexivity|].
  split; vm_compute; reflexivity.
Qed.

(* ================================================================== *)
(** ** C7: the bracket search *)

(** C7.  On a track that is not empty and whose times increase strictly,
    [getRelatedKeyFramesForTime] returns four indices [r0, r1, r2, r3] of
    the track such that: when [time] lies between the first and the last
    time, the time at [r1] is at most [time] and [time] is at most the
    time at [r2]; when [time] is before the first time both are the first
    key frame, when it is after the last time both are the last; [r0] is
    the index before [r1], or [r1] itself at the start; [r3] is the index
    after [r2], or [r2] itself at the end. *)
Theorem C7_bracket (time : F32.float) (keyFrames : list KeyFrame) :
  keyFrames <> [] -> times_increasing keyFrames = true ->
  let n := length keyFrames in
  exists r0 r1 r2 r3,
    getRelatedKeyFramesForTime time keyFrames = Some (r0, r1, r2, r3)
    /\ r2 < n /\ (r1 = r2 \/ S r1 = r2)
    /\ (F32.leb (time_at keyFrames 0) time = true ->
        F32.leb time (time_at keyFrames (Nat.pred n)) = true ->
        F32.leb (time_at keyFrames r1) time = true
        /\ F32.leb time (time_at keyFrames r2) = true)
    /\ (F32.ltb time (time_at keyFrames 0) = true -> r1 = 0 /\ r2 = 0)
    /\ (F32.ltb (time_at keyFrames (Nat.pred n)) time = true ->
        r1 = Nat.pred n /\ r2 = Nat.pred n)
    /\ (r1 = 0 -> r0 = 0) /\ (r1 <> 0 -> S r0 = r1)
    /\ (r2 = Nat.pred n -> r3 = r2) /\ (r2 <> Nat.pred n -> r3 = S r2).
Proof.
  intros Hne Hs. cbv zeta.
  unfold getRelatedKeyFramesForTime.
  destruct keyFrames as [|kf0 rest0] eqn:E; [congruence|]. rewrite <- E in *. clear E.
  rewrite scan_backward_begin. cbn [skipn].
  destruct (scan_forward_spec time keyFrames Hne 0) as (k & Hk & Hlen & Hpass & Hstop).
  rewrite Hk. cbn [Nat.add]. set (n := length keyFrames) in *.
  change (time_ (nth k keyFrames KeyFrame_default)) with (time_at keyFrames k).
  set (r1 := if negb (Nat.eqb k 0) && F32.ltb time (time_at keyFrames k) then Nat.pred k else k).
  exists (if negb (Nat.eqb r1 0) then Nat.pred r1 else r1), r1, k,
         (if negb (Nat.eqb k (Nat.pred n)) then S k else k).
  assert (Hr1 : r1 = k \/ (S r1 = k /\ F32.ltb time (time_at keyFrames k) = true)).
  { unfold r1. destruct (Nat.eqb_spec k 0); simpl; [left; reflexivity|].
    destruct (F32.ltb time (time_at keyFrames k)); [right; split; [lia|reflexivity]|left; reflexivity]. }
  assert (Hr1k : r1 = k -> k = 0 \/ F32.ltb time (time_at keyFrames k) = false).
  { unfold r1. destruct (Nat.eqb_spec k 0); simpl; [left; assumption|].
    destruct (F32.ltb time (time_at keyFrames k)); [lia|right; reflexivity]. }
  split; [reflexivity|]. split; [exact Hlen|].
  split; [destruct Hr1 as [?|[? _]]; [left|right]; assumption|].
  split; [|split; [|split; [|split; [|split; [|split]]]]].
  - intros Hlo Hhi.
    assert (Hupper : F32.leb time (time_at keyFrames k) = true).
    { destruct (F32.ltb (time_at keyFrames k) time) eqn:Hlt.
      - destruct Hstop as [Hstop|Hstop]; [congruence|]. subst k.
        apply ltb_asym in Hlt. congruence.
      - apply ltb_false_leb; [|apply (leb_not_nan _ _ Hhi)|exact Hlt].
        destruct (Nat.eq_dec k 0) as [->|Hk0]; [apply (leb_not_nan _ _ Hlo)|].
        apply times_increasing_not_nan; auto; lia. }
    split; [|exact Hupper].
    destruct Hr1 as [Heq|[Heq Hlt]].
    + rewrite Heq. destruct (Hr1k Heq) as [->|Hnlt]; [exact Hlo|].
      apply ltb_false_leb; [apply (leb_not_nan _ _ Hhi)| |exact Hnlt].
      apply (leb_not_nan _ _ Hupper).
    + apply ltb_leb. apply Hpass. lia.
  - intros Hlow.
    assert (k = 0).
    { destruct k as [|k']; [reflexivity|].
      specialize (Hpass 0 ltac:(lia)). apply ltb_asym in Hlow. apply ltb_leb in Hpass. congruence. }
    subst k. destruct Hr1 as [?|[? _]]; [split; auto|lia].
  - intros Hhigh.
    assert (k = Nat.pred n).
    { destruct Hstop as [Hstop|Hstop]; [|exact Hstop].
      destruct (Nat.eq_dec k (Nat.pred n)) as [?|Hd]; [assumption|].
      assert (F32.ltb (time_at keyFrames k) time = true); [|congruence].
      apply ltb_trans with (time_at keyFrames (Nat.pred n)); [|exact Hhigh].
      apply times_increasing_lt; auto; lia. }
    subst k. split; [|reflexivity].
    destruct Hr1 as [?|[_ Hlt]]; [assumption|].
    apply ltb_asym in Hlt. apply ltb_leb in Hhigh. congruence.
  - intros ->. reflexivity.
  - intros Hnz. destruct (Nat.eqb_spec r1 0); [congruence|]. simpl. lia.
  - intros ->. rewrite Nat.eqb_refl. reflexivity.
  - intros Hd. destruct (Nat.eqb_spec k (Nat.pred n)); [congruence|]. reflexivity.
Qed.

Lemma C7_bracket_witness :
  exists r0 r1 r2 r3,
    getRelatedKeyFramesForTime (F32.div (F32.of_Z 3) (F32.of_Z 2))
      (keyframes_ three_key_frames) = Some (r0, r1, r2, r3)
    /\ F32.leb (time_at (keyframes_ three_key_frames) r1)
               (F32.div (F32.of_Z 3) (F32.of_Z 2)) = true
    /\ F32.leb (F32.div (F32.of_Z 3) (F32.of_Z 2))
               (time_at (keyframes_ three_key_frames) r2) = true.
Proof.
  destruct (C7_bracket (F32.div (F32.of_Z 3) (F32.of_Z 2)) (keyframes_ three_key_frames))
    as (r0 & r1 & r2 & r3 & Hget & _ & _ & Hin & _).
  - vm_compute. discriminate.
  - vm_compute. reflexivity.
  - exists r0, r1, r2, r3. split; [exact Hget|].
    apply Hin; vm_compute; reflexivity.
Defined.

Example bracket_between_second_and_third :
  getRelatedKeyFramesForTime (F32.div (F32.of_Z 3) (F32.of_Z 2))
    (keyframes_ three_key_frames) = Some (0, 1, 2, 2).
Proof. vm_compute. reflexivity. Qed.

(* ================================================================== *)
(** ** C8: orientations after the flip pass *)

Section C8.
Context {M : MathLib}.

(** C8.  On a track that is not empty [updateModifiedFrameValues]
    returns a track of the same length in which the dot product of the
    orientations of every two consecutive key frames is not negative: the
    test [dot < 0] fails on it, and it is at least 0 unless it is a
    NaN. *)
Theorem C8_orientation_continuity (keyFrames : list KeyFrame) :
  keyFrames <> [] ->
  exists keyFrames',
    updateModifiedFrameValues keyFrames = Some keyFrames'
    /\ length keyFrames' = length keyFrames
    /\ forall i a b,
         nth_error keyFrames' i = Some a -> nth_error keyFrames' (S i) = Some b ->
         dot_is_nonnegative (q_ a) (q_ b).
Proof.
  intros Hne. unfold updateModifiedFrameValues.
  destruct keyFrames as [|front rest]; [congruence|].
  pose proof (flip_pass_chain (front :: rest) (q_ front)) as Hc.
  pose proof (flip_pass_length (front :: rest) (q_ front)) as Hl.
  destruct (flip_pass (q_ front) (front :: rest)) as [|front' rest'] eqn:E; [discriminate|].
  eexists; split; [reflexivity|]. split; [rewrite tangent_pass_length; exact Hl|].
  intros i a b Ha Hb.
  destruct (tangent_pass_q _ _ _ _ Ha) as (a0 & Ha0 & -> & _).
  destruct (tangent_pass_q _ _ _ _ Hb) as (b0 & Hb0 & -> & _).
  exact (chain_nonnegative_nth _ _ Hc i a0 b0 Ha0 Hb0).
Qed.
End C8.

Lemma C8_orientation_continuity_witness :
  exists keyFrames',
    updateModifiedFrameValues (M := example_lib) opposite_orientations = Some keyFrames'
    /\ length keyFrames' = 2
    /\ forall a b, nth_error keyFrames' 0 = Some a -> nth_error keyFrames' 1 = Some b ->
         F32.leb F32.zero (quat_dot (q_ a) (q_ b)) = true.
Proof.
  destruct (C8_orientation_continuity (M := example_lib) opposite_orientations)
    as (k' & H1 & H2 & H3).
  - unfold opposite_orientations. discriminate.
  - exists k'. split; [exact H1|]. split; [exact H2|].
    intros a b Ha Hb. apply (H3 0 a b Ha Hb).
    vm_compute in H1. injection H1 as <-.
    vm_compute in Ha. injection Ha as <-. vm_compute in Hb. injection Hb as <-.
    vm_compute. reflexivity.
Defined.

(* ================================================================== *)
(** ** C9: the times computed by [add_keyframe(frame)] *)

(** C9, at the failing input.  The object A gets the frames at x = 0, 1
    and 2; by the rule its key frames are at the times 0, 1 and 2.
    Between its second and its third append the object B gets its first
    two key frames, 2 apart: the static reference distance is then 2, no
    longer the distance 1 between the first two key frames of A, and the
    third key frame of A is at the time 1 + 1 / 2. *)
Theorem C9_reference_shared :
  let p := process_add_keyframes Process_start interleaved_calls in
  map (fun c => snd c) (filter (fun c => match fst c with ObjectA => true | ObjectB => false end)
                               interleaved_calls)
  = [pose 0 0 0; pose 1 0 0; pose 2 0 0]
  /\ map time_ (chord_rule_track [pose 0 0 0; pose 1 0 0; pose 2 0 0])
     = [F32.zero; F32.one; F32.of_Z 2]
  /\ map time_ (keyframes_ (object_a p))
     = [F32.zero; F32.one; F32.div (F32.of_Z 3) (F32.of_Z 2)]
  /\ map p_ (keyframes_ (object_a p)) = [point 0 0 0; point 1 0 0; point 2 0 0]
  /\ period_reference_distance p = F32.of_Z 2
  /\ keyframes_ (object_a p) <> chord_rule_track [pose 0 0 0; pose 1 0 0; pose 2 0 0].
Proof.
  cbv zeta. do 5 (split; [vm_compute; reflexivity|]).
  intros H. apply (f_equal (map time_)) in H. vm_compute in H. discriminate.
Qed.

Example computed_times_of_three :
  map time_ (keyframes_ three_key_frames) = [F32.zero; F32.one; F32.of_Z 2].
Proof. vm_compute. reflexivity. Qed.

(* ================================================================== *)
(** ** C10: removing the last key frame *)

(** C10.  [delete_last_keyframe()] tests nothing: on an empty track, and
    only there, it pops from an empty vector, which has no defined
    behaviour.  On any other track it removes the last key frame, marks
    the path invalid, sets the resume index to 0 and stops playback. *)
Theorem C10_delete_last_keyframe (s : KeyFrameInterpolator) :
  (delete_last_keyframe s = None <-> keyframes_ s = [])
  /\ (forall s', delete_last_keyframe s = Some s' ->
        keyframes_ s <> []
        /\ keyframes_ s' = removelast (keyframes_ s)
        /\ S (length (keyframes_ s')) = length (keyframes_ s)
        /\ pathIsValid_ s' = false
        /\ last_stopped_index_ s' = 0%Z
        /\ interpolation_started_ s' = false
        /\ timer_ s' = Timer_stop (timer_ s)).
Proof.
  unfold delete_last_keyframe. destruct (keyframes_ s) as [|k ks] eqn:E.
  - split; [split; reflexivity|discriminate].
  - split; [split; discriminate|]. intros s' H. injection H as <-.
    cbn [keyframes_ pathIsValid_ last_stopped_index_ interpolation_started_ timer_
         stop_interpolation with_started with_timer with_last_stopped_index
         with_pathIsValid with_keyframes].
    split; [discriminate|]. split; [reflexivity|].
    split; [apply (removelast_length (k :: ks)); discriminate|]. repeat split.
Qed.

Example delete_last_keyframe_of_empty :
  delete_last_keyframe KeyFrameInterpolator_new = None.
Proof. reflexivity. Qed.

(* ================================================================== *)
(** ** Further facts about floats *)

Lemma leb_false_ltb x y :
  F32.is_nan x = false -> F32.is_nan y = false -> F32.leb y x = false -> F32.ltb x y = true.
Proof. intros; float_cmp. Qed.

Lemma leb_nan_l x : F32.leb F32.nan x = false.
Proof. destruct x as [[]|[]| |[] ? ?]; reflexivity. Qed.

Lemma leb_nan_r x : F32.leb x F32.nan = false.
Proof. destruct x as [[]|[]| |[] ? ?]; reflexivity. Qed.

Lemma ltb_nan_r x : F32.ltb x F32.nan = false.
Proof. destruct x as [[]|[]| |[] ? ?]; reflexivity. Qed.

Lemma ltb_zero_sign_clear x : sign_clear x = true -> F32.ltb x F32.zero = false.
Proof. destruct x as [[]|[]| |[] ? ?]; try discriminate; reflexivity. Qed.

Lemma binary_round_aux_sign_clear m e l :
  sign_clear (binary_round_aux F32.prec F32.emax false m e l) = true.
Proof.
  unfold binary_round_aux.
  destruct (shr_fexp F32.prec F32.emax m e l) as [mrs' e'].
  destruct (shr_fexp F32.prec F32.emax _ e' loc_Exact) as [mrs'' e''].
  destruct (shr_m mrs''); simpl; try reflexivity.
  destruct (Z.leb e'' _); reflexivity.
Qed.

Lemma binary_round_sign_clear m e :
  sign_clear (binary_round F32.prec F32.emax false m e) = true.
Proof.
  unfold binary_round. destruct (shl_align m e _) as [mz ez].
  apply binary_round_aux_sign_clear.
Qed.

(** A square is not below zero. *)
Lemma mul_self_sign_clear x : sign_clear (F32.mul x x) = true.
Proof.
  destruct x as [[]|[]| |s m e]; try reflexivity.
  unfold F32.mul, SFmul. rewrite xorb_nilpotent. apply binary_round_aux_sign_clear.
Qed.

Lemma add_sign_clear x y :
  sign_clear x = true -> sign_clear y = true -> sign_clear (F32.add x y) = true.
Proof.
  destruct x as [[]|[]| |[] mx ex], y as [[]|[]| |[] my ey]; try discriminate;
    intros _ _; try reflexivity.
  unfold F32.add, SFadd. cbn [cond_Zopp].
  match goal with |- context [Z.add (Zpos ?a) (Zpos ?b)] =>
    change (Z.add (Zpos a) (Zpos b)) with (Zpos (a + b)) end.
  apply binary_round_sign_clear.
Qed.

Lemma quat_dot_self q : F32.ltb (quat_dot q q) F32.zero = false.
Proof.
  apply ltb_zero_sign_clear. unfold quat_dot.
  repeat apply add_sign_clear; apply mul_self_sign_clear.
Qed.

Lemma distance2_sign_clear a b : sign_clear (distance2 a b) = true.
Proof.
  unfold distance2. cbv zeta.
  repeat apply add_sign_clear; apply mul_self_sign_clear.
Qed.

(* ================================================================== *)
(** ** Appending, removing and reading key frames *)

Lemma times_increasing_snoc ks k : ks <> [] ->
  times_increasing (ks ++ [k])
  = times_increasing ks && F32.ltb (time_ (last ks KeyFrame_default)) (time_ k).
Proof.
  induction ks as [|a [|b r] IH]; intros Hne; [congruence| |].
  - cbn. rewrite andb_true_r. reflexivity.
  - change ((a :: b :: r) ++ [k]) with (a :: (b :: r) ++ [k]).
    change (last (a :: b :: r) KeyFrame_default) with (last (b :: r) KeyFrame_default).
    cbn [times_increasing app]. cbn [times_increasing app] in IH.
    rewrite IH by discriminate. rewrite andb_assoc. reflexivity.
Qed.

Lemma lastTime_snoc s ks k : keyframes_ s = ks ++ [k] -> lastTime s = time_ k.
Proof.
  intros H. unfold lastTime. rewrite H. rewrite last_last.
  destruct ks; reflexivity.
Qed.

Lemma lastTime_last s : keyframes_ s <> [] ->
  lastTime s = time_ (last (keyframes_ s) KeyFrame_default).
Proof. unfold lastTime. destruct (keyframes_ s); [congruence|reflexivity]. Qed.

(** X1.  [add_keyframe(frame, time)] keeps the times of the track strictly
    increasing, as long as neither the time given nor the time of the last
    key frame is a NaN; the key frame is appended exactly when the track
    is empty or its last time is below the time given. *)
Theorem add_keyframe_keeps_increasing (s : KeyFrameInterpolator) (frame : Frame)
  (time : F32.float) :
  times_increasing (keyframes_ s) = true ->
  F32.is_nan (lastTime s) = false ->
  F32.is_nan time = false ->
  let s' := add_keyframe s frame time in
  times_increasing (keyframes_ s') = true
  /\ F32.is_nan (lastTime s') = false
  /\ (keyframes_ s = [] \/ F32.ltb (lastTime s) time = true ->
      keyframes_ s' = keyframes_ s ++ [new_KeyFrame frame time])
  /\ (keyframes_ s <> [] -> F32.ltb (lastTime s) time = false ->
      keyframes_ s' = keyframes_ s).
Proof.
  intros Hinc Hlast Htime. cbv zeta.
  rewrite add_keyframe_keyframes. unfold rejects.
  destruct (keyframes_ s) as [|k0 ks] eqn:E.
  - cbn [negb andb app]. split; [reflexivity|]. split.
    + rewrite (lastTime_snoc (add_keyframe s frame time) [] (new_KeyFrame frame time));
        [exact Htime|]. rewrite add_keyframe_keyframes, E. reflexivity.
    + split; [reflexivity|congruence].
  - rewrite <- E in *. cbn [negb andb].
    assert (Hne : keyframes_ s <> []) by (rewrite E; discriminate).
    rewrite (lastTime_last s Hne) in Hlast.
    assert (Hl : lastTime s = time_ (last (keyframes_ s) KeyFrame_default))
      by (apply lastTime_last; exact Hne).
    replace (match keyframes_ s with [] => true | _ :: _ => false end) with false
      by (rewrite E; reflexivity).
    cbn [negb andb]. unfold F32.geb.
    destruct (F32.leb time (time_ (last (keyframes_ s) KeyFrame_default))) eqn:Hle.
    + split; [exact Hinc|]. split.
      * unfold lastTime at 1.
        rewrite add_keyframe_keyframes. unfold rejects.
        replace (match keyframes_ s with [] => true | _ :: _ => false end) with false
          by (rewrite E; reflexivity).
        cbn [negb andb]. unfold F32.geb. rewrite Hle.
        rewrite E. rewrite <- E. exact Hlast.
      * split.
        -- intros [H|H]; [congruence|]. rewrite Hl in H.
           apply ltb_asym in H. congruence.
        -- reflexivity.
    + assert (Hlt : F32.ltb (time_ (last (keyframes_ s) KeyFrame_default)) time = true)
        by (apply leb_false_ltb; assumption).
      split; [rewrite times_increasing_snoc by exact Hne; rewrite Hinc; exact Hlt|].
      split.
      * rewrite (lastTime_snoc (add_keyframe s frame time) (keyframes_ s)
                   (new_KeyFrame frame time)); [exact Htime|].
        rewrite add_keyframe_keyframes. unfold rejects.
        replace (match keyframes_ s with [] => true | _ :: _ => false end) with false
          by (rewrite E; reflexivity).
        cbn [negb andb]. unfold F32.geb. rewrite Hle. reflexivity.
      * split; [reflexivity|]. intros _ H. rewrite Hl in H. congruence.
Qed.

Lemma add_keyframe_keeps_increasing_witness :
  times_increasing (keyframes_ (add_keyframe two_key_frames (pose 3 0 0) (F32.of_Z 2))) = true
  /\ length (keyframes_ (add_keyframe two_key_frames (pose 3 0 0) (F32.of_Z 2))) = 3.
Proof.
  destruct (add_keyframe_keeps_increasing two_key_frames (pose 3 0 0) (F32.of_Z 2))
    as (H1 & _ & H2 & _).
  - vm_compute. reflexivity.
  - vm_compute. reflexivity.
  - vm_compute. reflexivity.
  - split; [exact H1|]. rewrite H2 by (right; vm_compute; reflexivity).
    vm_compute. reflexivity.
Defined.

(** X2.  A time that is a NaN is never refused: the key frame is
    appended to any track, whose times are then no longer increasing when
    it was not empty; and after it every time is accepted, whatever the
    times before. *)
Theorem add_keyframe_nan_accepted (s : KeyFrameInterpolator) (frame : Frame) :
  let s' := add_keyframe s frame F32.nan in
  keyframes_ s' = keyframes_ s ++ [new_KeyFrame frame F32.nan]
  /\ (keyframes_ s <> [] -> times_increasing (keyframes_ s') = false)
  /\ (forall frame' time,
        keyframes_ (add_keyframe s' frame' time)
        = keyframes_ s ++ [new_KeyFrame frame F32.nan; new_KeyFrame frame' time]).
Proof.
  cbv zeta.
  assert (H : keyframes_ (add_keyframe s frame F32.nan)
              = keyframes_ s ++ [new_KeyFrame frame F32.nan]).
  { rewrite add_keyframe_keyframes. unfold rejects, F32.geb.
    rewrite leb_nan_l, andb_false_r. reflexivity. }
  split; [exact H|]. split.
  - intros Hne. rewrite H, times_increasing_snoc by exact Hne.
    cbn [new_KeyFrame time_]. rewrite ltb_nan_r. apply andb_false_r.
  - intros frame' time. rewrite add_keyframe_keyframes, H. unfold rejects, F32.geb.
    rewrite last_last. cbn [new_KeyFrame time_].
    rewrite leb_nan_r, andb_false_r, <- app_assoc. reflexivity.
Qed.

(** X3.  [delete_last_keyframe()] right after [add_keyframe(frame, time)]
    is always defined.  It gives back the key frames of before when the
    time was accepted; when the time was refused it removes the last key
    frame that was there before. *)
Theorem delete_last_after_add (s : KeyFrameInterpolator) (frame : Frame) (time : F32.float) :
  exists s',
    delete_last_keyframe (add_keyframe s frame time) = Some s'
    /\ (keyframes_ s = [] \/ F32.geb (lastTime s) time = false ->
        keyframes_ s' = keyframes_ s)
    /\ (keyframes_ s <> [] -> F32.geb (lastTime s) time = true ->
        keyframes_ s' = removelast (keyframes_ s)).
Proof.
  unfold delete_last_keyframe.
  pose proof (add_keyframe_keyframes s frame time) as H. unfold rejects in H.
  destruct (keyframes_ s) as [|k0 ks] eqn:E.
  - cbn [negb andb app] in H. rewrite H. eexists. split; [reflexivity|].
    split; [intros _; reflexivity|congruence].
  - cbn [negb andb] in H.
    assert (Hl : lastTime s = time_ (last (k0 :: ks) KeyFrame_default))
      by (unfold lastTime; rewrite E; reflexivity).
    rewrite Hl.
    destruct (F32.geb (time_ (last (k0 :: ks) KeyFrame_default)) time) eqn:G; rewrite H.
    + eexists. split; [reflexivity|]. cbn [keyframes_ stop_interpolation with_started
        with_timer with_last_stopped_index with_pathIsValid with_keyframes].
      split; [intros [?|?]; congruence|reflexivity].
    + destruct ((k0 :: ks) ++ [new_KeyFrame frame time]) as [|a l] eqn:E2.
      { destruct ks; discriminate. }
      eexists. split; [reflexivity|]. cbn [keyframes_ stop_interpolation with_started
        with_timer with_last_stopped_index with_pathIsValid with_keyframes].
      rewrite <- E2. split; [intros _; apply removelast_last|congruence].
Qed.

Lemma keyframe_none s i : keyframe s i = None <-> length (keyframes_ s) <= i.
Proof.
  unfold keyframe. rewrite <- nth_error_None.
  destruct (nth_error (keyframes_ s) i); split; congruence.
Qed.

(** X4.  After an append that is accepted, [keyframe(n)] and
    [keyframe_time(n)] at the old size [n] are the frame and the time
    given, the index after is out of range, and the key frames before are
    those of before.  An index is out of range, for which [at] throws,
    exactly when it is not below the size. *)
Theorem keyframe_after_append (s : KeyFrameInterpolator) (frame : Frame) (time : F32.float) :
  keyframes_ s = [] \/ F32.geb (lastTime s) time = false ->
  let n := length (keyframes_ s) in
  let s' := add_keyframe s frame time in
  keyframe s' n = Some frame
  /\ keyframe_time s' n = Some time
  /\ (forall i, keyframe s' i = None <-> n < i)
  /\ (forall i, i < n -> keyframe s' i = keyframe s i
                         /\ keyframe_time s' i = keyframe_time s i).
Proof.
  intros Hacc. cbv zeta.
  assert (H : keyframes_ (add_keyframe s frame time)
              = keyframes_ s ++ [new_KeyFrame frame time]).
  { rewrite add_keyframe_keyframes. unfold rejects.
    destruct Hacc as [->|Hg]; [reflexivity|].
    destruct (keyframes_ s) as [|k0 ks] eqn:E; [reflexivity|].
    unfold lastTime in Hg. rewrite E in Hg. rewrite Hg. reflexivity. }
  unfold keyframe, keyframe_time. rewrite H.
  split; [|split; [|split]].
  - rewrite nth_error_app2 by lia. rewrite Nat.sub_diag. cbn. destruct frame; reflexivity.
  - rewrite nth_error_app2 by lia. rewrite Nat.sub_diag. reflexivity.
  - intros i. split.
    + intros Hn. destruct (nth_error (keyframes_ s ++ [new_KeyFrame frame time]) i) eqn:E;
        [discriminate|].
      apply nth_error_None in E. rewrite length_app in E. cbn [length] in E. lia.
    + intros Hi. rewrite (proj2 (nth_error_None _ i)); [reflexivity|].
      rewrite length_app. cbn [length]. lia.
  - intros i Hi. rewrite nth_error_app1 by lia. split; reflexivity.
Qed.

Lemma keyframe_after_append_witness :
  keyframe (add_keyframe two_key_frames (pose 3 0 0) (F32.of_Z 2)) 2 = Some (pose 3 0 0).
Proof.
  apply (keyframe_after_append two_key_frames (pose 3 0 0) (F32.of_Z 2)).
  right. vm_compute. reflexivity.
Defined.

(* ================================================================== *)
(** ** Computed times when the reference distance is zero *)

Lemma sub_self_zero_or_nan x :
  F32.is_zero (F32.sub x x) || F32.is_nan (F32.sub x x) = true.
Proof.
  destruct x as [[]|[]| |s m e]; try reflexivity.
  unfold F32.sub, SFsub. rewrite Z.sub_diag. reflexivity.
Qed.

Lemma mul_zero_or_nan x y :
  F32.is_zero x || F32.is_nan x = true -> F32.is_zero y || F32.is_nan y = true ->
  F32.is_zero (F32.mul x y) || F32.is_nan (F32.mul x y) = true.
Proof.
  destruct x as [[]|[]| |[] ? ?], y as [[]|[]| |[] ? ?]; try discriminate; reflexivity.
Qed.

Lemma add_zero_or_nan x y :
  F32.is_zero x || F32.is_nan x = true -> F32.is_zero y || F32.is_nan y = true ->
  F32.is_zero (F32.add x y) || F32.is_nan (F32.add x y) = true.
Proof.
  destruct x as [[]|[]| |[] ? ?], y as [[]|[]| |[] ? ?]; try discriminate; reflexivity.
Qed.

Lemma sqrt_zero_or_nan x :
  F32.is_zero x || F32.is_nan x = true ->
  F32.is_zero (F32.sqrt x) || F32.is_nan (F32.sqrt x) = true.
Proof. destruct x as [[]|[]| |[] ? ?]; try discriminate; reflexivity. Qed.

(** The distance of a point to itself is zero, or a NaN when the point has
    a component that is not finite. *)
Lemma distance_self p :
  F32.is_zero (distance p p) || F32.is_nan (distance p p) = true.
Proof.
  unfold distance, distance2. cbv zeta. cbn [vsub vx vy vz].
  apply sqrt_zero_or_nan.
  repeat apply add_zero_or_nan; apply mul_zero_or_nan; apply sub_self_zero_or_nan.
Qed.

Lemma div_by_zero_or_nan x z :
  F32.is_zero z || F32.is_nan z = true -> F32.is_finite (F32.div x z) = false.
Proof.
  destruct z as [[]|[]| |[] ? ?]; try discriminate; intros _;
    destruct x as [[]|[]| |[] ? ?]; reflexivity.
Qed.

Lemma add_not_finite x y : F32.is_finite y = false -> F32.is_finite (F32.add x y) = false.
Proof.
  destruct y as [[]|[]| |[] ? ?]; try discriminate; intros _;
    destruct x as [[]|[]| |[] ? ?]; reflexivity.
Qed.

(** X5.  When the first two key frames of a track filled by
    [add_keyframe(frame)] are at the same position, the reference distance
    is zero (or a NaN) and no later key frame gets a finite time: each is
    at an infinity or a NaN. *)
Theorem equal_first_positions_no_finite_time (ref : F32.float)
  (s : KeyFrameInterpolator) (frames : list Frame) :
  keyframes_ s = [] ->
  let ks := keyframes_ (snd (add_keyframes_auto ref s frames)) in
  forall k0 k1, nth_error ks 0 = Some k0 -> nth_error ks 1 = Some k1 ->
  p_ k0 = p_ k1 ->
  forall i k, 2 <= i -> nth_error ks i = Some k -> F32.is_finite (time_ k) = false.
Proof.
  intros Hempty ks k0 k1 H0 H1 Hp i k Hi Hk.
  assert (Hinit : auto_times F32.one (keyframes_ s) /\ reference_recorded ref (keyframes_ s)).
  { rewrite Hempty. split; [apply auto_times_nil|]. intros ? ? H; discriminate. }
  destruct (add_keyframes_auto_invariant frames ref s (proj1 Hinit) (proj2 Hinit))
    as [(_ & _ & Hc) _].
  destruct i as [|i]; [lia|].
  destruct (nth_error ks i) as [a|] eqn:Ha.
  - rewrite (Hc k0 k1 i a k H0 H1 ltac:(lia) Ha Hk). unfold chord_time.
    apply add_not_finite. apply div_by_zero_or_nan. rewrite Hp. apply distance_self.
  - apply nth_error_None in Ha.
    assert (S i < length ks) by (apply nth_error_Some; congruence). lia.
Qed.

Lemma equal_first_positions_no_finite_time_witness :
  exists k,
    nth_error (keyframes_ (snd (add_keyframes_auto F32.zero KeyFrameInterpolator_new
                                  [pose 0 0 0; pose 0 0 0; pose 1 0 0]))) 2 = Some k
    /\ F32.is_finite (time_ k) = false.
Proof.
  eexists. split; [vm_compute; reflexivity|].
  eapply (equal_first_positions_no_finite_time F32.zero KeyFrameInterpolator_new
            [pose 0 0 0; pose 0 0 0; pose 1 0 0] eq_refl _ _) with (i := 2);
    [vm_compute; reflexivity|vm_compute; reflexivity|reflexivity|lia|vm_compute; reflexivity].
Defined.

(* ================================================================== *)
(** ** The bracket on any track, and outside the range of times *)

(** X6.  On any track that is not empty, sorted or not, and for any time,
    a NaN included, [getRelatedKeyFramesForTime] returns four indices of
    the track, in order and each at most one after the one before: no
    iterator leaves the vector.  It has no result exactly on the empty
    track. *)
Theorem bracket_in_range (time : F32.float) (keyFrames : list KeyFrame) :
  (getRelatedKeyFramesForTime time keyFrames = None <-> keyFrames = [])
  /\ forall r0 r1 r2 r3,
       getRelatedKeyFramesForTime time keyFrames = Some (r0, r1, r2, r3) ->
       r0 <= r1 /\ r1 <= r2 /\ r2 <= r3 /\ r3 < length keyFrames
       /\ r1 <= S r0 /\ r2 <= S r1 /\ r3 <= S r2.
Proof.
  unfold getRelatedKeyFramesForTime.
  destruct keyFrames as [|kf0 rest0] eqn:E; [split; [split; reflexivity|discriminate]|].
  rewrite <- E. assert (Hne : keyFrames <> []) by (rewrite E; discriminate). clear E.
  split; [split; [discriminate|congruence]|].
  rewrite scan_backward_begin. cbn [skipn].
  destruct (scan_forward_spec time keyFrames Hne 0) as (k & Hk & Hlen & _ & _).
  rewrite Hk. cbn [Nat.add]. intros r0 r1 r2 r3 H. injection H as <- <- <- <-.
  destruct (F32.ltb time _);
    repeat match goal with
    | |- context [Nat.eqb ?a ?b] => destruct (Nat.eqb_spec a b); cbn [negb andb]
    end; lia.
Qed.

Lemma bracket_before_first time keyFrames : keyFrames <> [] ->
  F32.ltb time (time_at keyFrames 0) = true ->
  exists r3, getRelatedKeyFramesForTime time keyFrames = Some (0, 0, 0, r3).
Proof.
  intros Hne Hlt. unfold getRelatedKeyFramesForTime.
  destruct keyFrames as [|k0 rest]; [congruence|].
  rewrite scan_backward_begin. cbn [skipn scan_forward].
  unfold time_at in Hlt. cbn [nth] in Hlt.
  replace (F32.ltb (time_ k0) time) with false
    by (symmetry; apply ltb_asym in Hlt;
        destruct (F32.ltb (time_ k0) time) eqn:G; [apply ltb_leb in G; congruence|reflexivity]).
  cbn. eexists; reflexivity.
Qed.

Lemma bracket_after_last time keyFrames : keyFrames <> [] ->
  times_increasing keyFrames = true ->
  let n := Nat.pred (length keyFrames) in
  F32.ltb (time_at keyFrames n) time = true ->
  exists r0, getRelatedKeyFramesForTime time keyFrames = Some (r0, n, n, n).
Proof.
  intros Hne Hs. cbv zeta. intros Hhigh. unfold getRelatedKeyFramesForTime.
  destruct keyFrames as [|kf0 rest0] eqn:E; [congruence|]. rewrite <- E in *. clear E.
  rewrite scan_backward_begin. cbn [skipn].
  destruct (scan_forward_spec time keyFrames Hne 0) as (k & Hk & Hlen & Hpass & Hstop).
  rewrite Hk. cbn [Nat.add]. set (n := Nat.pred (length keyFrames)) in *.
  assert (k = n) as ->.
  { destruct Hstop as [Hstop|Hstop]; [|exact Hstop].
    destruct (Nat.eq_dec k n) as [?|Hd]; [assumption|].
    assert (F32.ltb (time_at keyFrames k) time = true); [|congruence].
    apply ltb_trans with (time_at keyFrames n); [|exact Hhigh].
    apply times_increasing_lt; [assumption|unfold n; lia|unfold n; lia]. }
  change (time_ (nth n keyFrames KeyFrame_default)) with (time_at keyFrames n).
  replace (F32.ltb time (time_at keyFrames n)) with false
    by (symmetry; destruct (F32.ltb time (time_at keyFrames n)) eqn:G; [|reflexivity];
        apply ltb_asym in G; apply ltb_leb in Hhigh; congruence).
  rewrite andb_false_r, Nat.eqb_refl. cbn [negb]. eexists; reflexivity.
Qed.

Section Clamping.
Context {M : MathLib}.

(** X7.  The spline is not extrapolated.  For a time before the first
    time the bracket is the first key frame twice, and for a time after
    the last time of an increasing track it is the last key frame twice;
    when the time, position, tangent and spline coefficients of that key
    frame are finite, the position computed equals ([==]) its position,
    however far the time is outside. *)
Theorem frame_outside_range (time : F32.float) (keyFrames : list KeyFrame) :
  keyFrames <> [] ->
  let first := hd KeyFrame_default keyFrames in
  let final := last keyFrames KeyFrame_default in
  (F32.ltb time (time_ first) = true -> end_point_finite first ->
   exists f, frame_at_time time keyFrames = Some f
             /\ vec3_eqb (position f) (p_ first) = true)
  /\ (times_increasing keyFrames = true ->
      F32.ltb (time_ final) time = true -> end_point_finite final ->
      exists f, frame_at_time time keyFrames = Some f
                /\ vec3_eqb (position f) (p_ final) = true).
Proof.
  intros Hne first final.
  assert (Hfirst : nth 0 keyFrames KeyFrame_default = first)
    by (unfold first; destruct keyFrames; [congruence|reflexivity]).
  assert (Hlast : nth (Nat.pred (length keyFrames)) keyFrames KeyFrame_default = final)
    by (unfold final; symmetry; apply last_nth).
  split.
  - intros Hlt Hfin.
    destruct (bracket_before_first time keyFrames Hne) as [r3 Hget].
    { unfold time_at. rewrite Hfirst. exact Hlt. }
    exact (frame_at_key_frame _ _ _ _ _ _ Hget Hfirst Hfin).
  - intros Hs Hlt Hfin.
    destruct (bracket_after_last time keyFrames Hne Hs) as [r0 Hget].
    { unfold time_at. rewrite Hlast. exact Hlt. }
    exact (frame_at_key_frame _ _ _ _ _ _ Hget Hlast Hfin).
Qed.
End Clamping.

Lemma frame_outside_range_witness :
  exists f,
    frame_at_time (M := example_lib) (F32.of_Z 5) (keyframes_ three_key_frames) = Some f
    /\ vec3_eqb (position f) (point 2 0 0) = true.
Proof.
  destruct (frame_outside_range (M := example_lib) (F32.of_Z 5) (keyframes_ three_key_frames))
    as [_ H].
  - vm_compute. discriminate.
  - apply H; [vm_compute; reflexivity|vm_compute; reflexivity|].
    repeat split; vm_compute; reflexivity.
Defined.

(* ================================================================== *)
(** ** The tangents at the two ends of a track *)

Lemma mul_zero_r a z :
  F32.is_finite a = true -> F32.is_zero z = true -> F32.is_zero (F32.mul a z) = true.
Proof.
  destruct a as [[]|[]| |[] ? ?], z as [[]|[]| |[] ? ?]; try discriminate; reflexivity.
Qed.

Lemma sub_add_zero x z :
  F32.is_finite x = true -> F32.is_zero z = true ->
  F32.is_zero (F32.sub x (F32.add x z)) = true
  /\ F32.is_zero (F32.sub (F32.add x z) x) = true.
Proof.
  destruct x as [[]|[]| |s m e], z as [[]|[]| |s' m' e']; try discriminate; intros _ _;
    try (split; reflexivity).
  all: cbn [F32.add SFadd]; unfold F32.add, SFadd;
    rewrite (sub_diag (S754_finite s m e) eq_refl); split; reflexivity.
Qed.

Lemma distance2_self p : vec3_is_finite p = true -> distance2 p p = F32.zero.
Proof.
  intros H. destruct (vec3_is_finite_components p H) as (Hx & Hy & Hz).
  unfold distance2. cbv zeta. cbn [vsub vx vy vz].
  rewrite !sub_diag by assumption. reflexivity.
Qed.

Lemma half_finite : F32.is_finite half = true.
Proof. vm_compute. reflexivity. Qed.

(** [half * (p - (p + z))] and [half * ((p + z) - p)] are null when [z]
    is. *)
Lemma half_difference_zero p z : vec3_is_finite p = true ->
  F32.is_zero (vx z) = true /\ F32.is_zero (vy z) = true /\ F32.is_zero (vz z) = true ->
  vec3_is_zero (vscale half (vsub p (vadd p z))) = true
  /\ vec3_is_zero (vscale half (vsub (vadd p z) p)) = true.
Proof.
  intros H (Zx & Zy & Zz). destruct (vec3_is_finite_components p H) as (Hx & Hy & Hz).
  unfold vec3_is_zero. cbn [vscale vsub vadd vx vy vz].
  destruct (sub_add_zero _ _ Hx Zx) as [X1 X2].
  destruct (sub_add_zero _ _ Hy Zy) as [Y1 Y2].
  destruct (sub_add_zero _ _ Hz Zz) as [Z1 Z2].
  rewrite !(mul_zero_r half) by (assumption || apply half_finite). split; reflexivity.
Qed.

Lemma flipOrientationIfNeeded_pose prevQ kf :
  same_pose_up_to_sign (flipOrientationIfNeeded prevQ kf) kf.
Proof.
  unfold flipOrientationIfNeeded, same_pose_up_to_sign.
  destruct (F32.ltb _ _); cbn; auto.
Qed.

Lemma flip_pass_pose l : forall prevQ, Forall2 same_pose_up_to_sign (flip_pass prevQ l) l.
Proof.
  induction l as [|kf rest IH]; intros prevQ; cbn [flip_pass]; constructor.
  - apply flipOrientationIfNeeded_pose.
  - apply IH.
Qed.

Section EndTangents.
Context {M : MathLib}.

Lemma computeTangent_pose prev next kf : same_pose (computeTangent prev next kf) kf.
Proof. unfold computeTangent, same_pose. cbn. auto. Qed.

Lemma tangent_pass_pose l : forall prev, Forall2 same_pose (tangent_pass prev l) l.
Proof.
  induction l as [|kf rest IH]; intros prev; cbn [tangent_pass]; constructor.
  - apply computeTangent_pose.
  - apply IH.
Qed.

(** The tangent of a key frame that is its own [next]. *)
Lemma computeTangent_at_end prev kf :
  vec3_is_finite (p_ kf) = true ->
  vec3_is_finite (normalize (vsub (p_ prev) (p_ kf))) = true ->
  vec3_is_zero (tgP_ (computeTangent prev kf kf)) = true.
Proof.
  intros Hp Hn. unfold computeTangent. cbn [tgP_].
  rewrite (distance2_self (p_ kf) Hp).
  rewrite (ltb_zero_sign_clear _ (distance2_sign_clear (p_ prev) (p_ kf))).
  change (F32.sqrt F32.zero) with F32.zero.
  apply (half_difference_zero (p_ kf) _ Hp). apply vscale_zero. exact Hn.
Qed.

(** The tangent of a key frame that is its own [prev], when the next one
    is at a distance. *)
Lemma computeTangent_at_start next kf :
  vec3_is_finite (p_ kf) = true ->
  vec3_is_finite (normalize (vsub (p_ next) (p_ kf))) = true ->
  F32.ltb F32.zero (distance2 (p_ next) (p_ kf)) = true ->
  vec3_is_zero (tgP_ (computeTangent kf next kf)) = true.
Proof.
  intros Hp Hn Hd. unfold computeTangent. cbn [tgP_].
  rewrite (distance2_self (p_ kf) Hp), Hd.
  change (F32.sqrt F32.zero) with F32.zero.
  apply (half_difference_zero (p_ kf) _ Hp). apply vscale_zero. exact Hn.
Qed.

Lemma tangent_pass_last l : forall prev c d,
  exists c', last (tangent_pass prev (l ++ [c; d])) KeyFrame_default = computeTangent c' d d
             /\ p_ c' = p_ c.
Proof.
  induction l as [|x l IH]; intros prev c d.
  - cbn. eexists. split; [reflexivity|reflexivity].
  - change ((x :: l) ++ [c; d]) with (x :: (l ++ [c; d])). cbn [tangent_pass].
    destruct (IH (computeTangent prev
                    match l ++ [c; d] with [] => x | n :: _ => n end x) c d)
      as (c' & Hc & Hp).
    exists c'. split; [|exact Hp]. rewrite <- Hc.
    destruct (tangent_pass _ (l ++ [c; d])) eqn:E; [|reflexivity].
    apply (f_equal (@length KeyFrame)) in E. rewrite tangent_pass_length, length_app in E.
    cbn in E. lia.
Qed.

Lemma Forall2_snoc2 {A B} (R : A -> B -> Prop) l' l c d :
  Forall2 R l' (l ++ [c; d]) ->
  exists l0 c' d', l' = l0 ++ [c'; d'] /\ R c' c /\ R d' d.
Proof.
  intros H. apply Forall2_app_inv_r in H. destruct H as (l0 & l1 & H0 & H1 & ->).
  inversion H1 as [|c' ? t1 ? Hc Ht1]; subst.
  inversion Ht1 as [|d' ? t2 ? Hd Ht2]; subst.
  inversion Ht2; subst. exists l0, c', d'. auto.
Qed.

(** X8.  The path leaves the first key frame and reaches the last one
    with a null tangent.  After [updateModifiedFrameValues] the position
    tangent of the last key frame is null, and so is that of the first
    one when the second is at a positive distance of it; in both cases
    provided the position is finite and [normalize] gives a finite
    direction to the neighbour. *)
Theorem end_tangents_zero (keyFrames : list KeyFrame) :
  keyFrames <> [] ->
  exists keyFrames',
    updateModifiedFrameValues keyFrames = Some keyFrames'
    /\ (forall a b rest, keyFrames = a :: b :: rest ->
          vec3_is_finite (p_ a) = true ->
          vec3_is_finite (normalize (vsub (p_ b) (p_ a))) = true ->
          F32.ltb F32.zero (distance2 (p_ b) (p_ a)) = true ->
          vec3_is_zero (tgP_ (hd KeyFrame_default keyFrames')) = true)
    /\ (forall init c d, keyFrames = init ++ [c; d] ->
          vec3_is_finite (p_ d) = true ->
          vec3_is_finite (normalize (vsub (p_ c) (p_ d))) = true ->
          vec3_is_zero (tgP_ (last keyFrames' KeyFrame_default)) = true).
Proof.
  intros Hne. unfold updateModifiedFrameValues.
  destruct keyFrames as [|front rest] eqn:E; [congruence|]. rewrite <- E.
  replace (q_ front) with (q_ (hd KeyFrame_default keyFrames)) by (rewrite E; reflexivity).
  pose proof (flip_pass_pose keyFrames (q_ (hd KeyFrame_default keyFrames))) as HF.
  destruct (flip_pass (q_ (hd KeyFrame_default keyFrames)) keyFrames) as [|f' r'] eqn:EF.
  { rewrite E in HF. inversion HF. }
  eexists. split; [reflexivity|]. split.
  - intros a b rest0 -> Ha Hn Hd.
    inversion HF as [|? ? ? ? Hfa HF1]; subst.
    inversion HF1 as [|b' ? r'' ? Hfb HF2]; subst.
    cbn [tangent_pass hd].
    destruct Hfa as (Pa & _ & _). destruct Hfb as (Pb & _ & _).
    apply computeTangent_at_start; rewrite ?Pa, ?Pb; assumption.
  - intros init c d Hk Hp Hn. rewrite Hk in HF.
    destruct (Forall2_snoc2 _ _ _ _ _ HF) as (l0 & c' & d' & Hl & (Pc & _) & (Pd & _)).
    rewrite Hl.
    destruct (tangent_pass_last l0 f' c' d') as (c'' & Hlast & Pc').
    rewrite Hlast. apply computeTangent_at_end; rewrite ?Pc', ?Pc, ?Pd; assumption.
Qed.
End EndTangents.

Lemma end_tangents_zero_witness :
  exists keyFrames',
    updateModifiedFrameValues (M := example_lib) (keyframes_ three_key_frames)
    = Some keyFrames'
    /\ vec3_is_zero (tgP_ (hd KeyFrame_default keyFrames')) = true
    /\ vec3_is_zero (tgP_ (last keyFrames' KeyFrame_default)) = true.
Proof.
  destruct (end_tangents_zero (M := example_lib) (keyframes_ three_key_frames))
    as (k' & H & H1 & H2).
  - vm_compute. discriminate.
  - exists k'. split; [exact H|]. split.
    + eapply H1; [vm_compute; reflexivity|vm_compute; reflexivity| |];
        vm_compute; reflexivity.
    + eapply (H2 [_]); [vm_compute; reflexivity| |]; vm_compute; reflexivity.
Defined.

(* ================================================================== *)
(** ** Running [updateModifiedFrameValues] again *)

Lemma dot_is_nonnegative_self q : dot_is_nonnegative q q.
Proof.
  split; [apply quat_dot_self|]. intros Hn.
  apply ltb_false_leb; [exact Hn|reflexivity|apply quat_dot_self].
Qed.

Lemma flip_pass_noop l : forall prevQ, chain_nonnegative prevQ l -> flip_pass prevQ l = l.
Proof.
  induction l as [|kf rest IH]; intros prevQ Hc; [reflexivity|].
  destruct Hc as [[Hlt _] Hrest]. cbn [flip_pass].
  unfold flipOrientationIfNeeded. rewrite Hlt. rewrite (IH _ Hrest). reflexivity.
Qed.

Lemma chain_nonnegative_pose l' l : Forall2 same_pose l' l ->
  forall prevQ, chain_nonnegative prevQ l -> chain_nonnegative prevQ l'.
Proof.
  induction 1 as [|a b l' l (Pa & Qa & Ta) Hall IH]; intros prevQ Hc; [exact I|].
  destruct Hc as [Hd Hrest]. cbn [chain_nonnegative]. rewrite Qa.
  split; [exact Hd|apply IH; exact Hrest].
Qed.

Section Again.
Context {M : MathLib}.

Lemma computeTangent_ext prev prev' next next' kf kf' :
  same_pose prev prev' -> same_pose next next' -> same_pose kf kf' ->
  computeTangent prev next kf = computeTangent prev' next' kf'.
Proof.
  intros (P1 & Q1 & _) (P2 & Q2 & _) (P3 & Q3 & T3).
  unfold computeTangent. rewrite P1, Q1, P2, Q2, P3, Q3, T3. reflexivity.
Qed.

Lemma tangent_pass_ext l l' : Forall2 same_pose l l' ->
  forall prev prev', same_pose prev prev' -> tangent_pass prev l = tangent_pass prev' l'.
Proof.
  induction 1 as [|a b l l' Hab Hall IH]; intros prev prev' Hp; [reflexivity|].
  cbn [tangent_pass].
  assert (Hn : same_pose match l with [] => a | n :: _ => n end
                         match l' with [] => b | n :: _ => n end)
    by (destruct Hall; assumption).
  rewrite (computeTangent_ext _ _ _ _ _ _ Hp Hn Hab).
  f_equal. apply IH. repeat split.
Qed.

Lemma updateModifiedFrameValues_cons front rest :
  updateModifiedFrameValues (front :: rest)
  = match flip_pass (q_ front) (front :: rest) with
    | [] => Some []
    | front' :: rest' => Some (tangent_pass front' (front' :: rest'))
    end.
Proof. reflexivity. Qed.

Lemma updateModifiedFrameValues_fixed (keyFrames keyFrames' : list KeyFrame) :
  updateModifiedFrameValues keyFrames = Some keyFrames' ->
  updateModifiedFrameValues keyFrames' = Some keyFrames'
  /\ Forall2 same_pose_up_to_sign keyFrames' keyFrames.
Proof.
  unfold updateModifiedFrameValues at 1.
  destruct keyFrames as [|front rest] eqn:E; [discriminate|]. rewrite <- E.
  replace (q_ front) with (q_ (hd KeyFrame_default keyFrames)) by (rewrite E; reflexivity).
  pose proof (flip_pass_pose keyFrames (q_ (hd KeyFrame_default keyFrames))) as HF.
  pose proof (flip_pass_chain keyFrames (q_ (hd KeyFrame_default keyFrames))) as HC.
  destruct (flip_pass (q_ (hd KeyFrame_default keyFrames)) keyFrames) as [|f' r'] eqn:EF.
  { rewrite E in HF. inversion HF. }
  intros H.
  assert (ET : tangent_pass f' (f' :: r') = keyFrames') by congruence. clear H.
  pose proof (tangent_pass_pose (f' :: r') f') as HT. rewrite ET in HT.
  split.
  - destruct keyFrames' as [|t0 tr]; [inversion HT|].
    rewrite updateModifiedFrameValues_cons.
    assert (Hq : q_ t0 = q_ f') by (inversion HT as [|? ? ? ? (_ & Q & _) _]; exact Q).
    assert (Hchain : chain_nonnegative (q_ t0) (t0 :: tr)).
    { apply (chain_nonnegative_pose _ _ HT). rewrite Hq.
      split; [apply dot_is_nonnegative_self|exact (proj2 HC)]. }
    rewrite (flip_pass_noop _ _ Hchain).
    rewrite (tangent_pass_ext _ _ HT t0 f'); [rewrite ET; reflexivity|].
    inversion HT; assumption.
  - clear HC EF ET. revert HT HF. generalize keyFrames'.
    generalize (f' :: r'). clear. intros l1 l2 HT. revert keyFrames.
    induction HT as [|a b l2 l1 (Pa & Qa & Ta) Hall IH]; intros keyFrames HF.
    + inversion HF. constructor.
    + inversion HF as [|? c ? l0 (Pc & Tc & Qc) HF']; subst. constructor.
      * split; [congruence|]. split; [congruence|]. rewrite Qa. exact Qc.
      * apply IH. exact HF'.
Qed.

(** X9.  [updateModifiedFrameValues] changes nothing when it is run a
    second time: no orientation is flipped again and the tangents come out
    the same.  What its first run changes of a key frame is the tangents
    and the sign of the orientation, never the position or the time. *)
Theorem updateModifiedFrameValues_again (keyFrames keyFrames' : list KeyFrame) :
  updateModifiedFrameValues keyFrames = Some keyFrames' ->
  updateModifiedFrameValues keyFrames' = Some keyFrames'
  /\ length keyFrames' = length keyFrames
  /\ Forall2 same_pose_up_to_sign keyFrames' keyFrames.
Proof.
  intros H. destruct (updateModifiedFrameValues_fixed _ _ H) as [H1 H2].
  split; [exact H1|]. split; [exact (Forall2_length H2)|exact H2].
Qed.
End Again.

Lemma updateModifiedFrameValues_again_witness :
  exists keyFrames',
    updateModifiedFrameValues (M := example_lib) opposite_orientations = Some keyFrames'
    /\ updateModifiedFrameValues (M := example_lib) keyFrames' = Some keyFrames'
    /\ map q_ keyFrames' = [quat_default; quat_negate (quat_negate quat_default)].
Proof.
  destruct (updateModifiedFrameValues (M := example_lib) opposite_orientations)
    as [k'|] eqn:E; [|vm_compute in E; discriminate].
  exists k'. split; [reflexivity|].
  split; [exact (proj1 (updateModifiedFrameValues_again (M := example_lib) _ _ E))|].
  vm_compute in E. injection E as <-. vm_compute. reflexivity.
Defined.

(* ================================================================== *)
(** ** Computing the path again *)

Lemma last_map_time l d : time_ (last l d) = last (map time_ l) (time_ d).
Proof.
  induction l as [|a [|b r] IH]; try reflexivity.
  change (last (a :: b :: r) d) with (last (b :: r) d). rewrite IH. reflexivity.
Qed.

(** What [do_interpolate] and [smooth] read of the object: the first and
    last time of its track and the sampling step. *)
Lemma sampling_of_times s s' :
  map time_ (keyframes_ s) = map time_ (keyframes_ s') ->
  fps_ s = fps_ s' -> interpolation_speed_ s = interpolation_speed_ s' ->
  firstTime s = firstTime s' /\ lastTime s = lastTime s'
  /\ sample_interval s = sample_interval s'.
Proof.
  intros Ht Hf Hv. split; [|split].
  - unfold firstTime. destruct (keyframes_ s), (keyframes_ s'); try discriminate;
      [reflexivity|]. injection Ht as Ht _. exact Ht.
  - unfold lastTime.
    destruct (keyframes_ s) as [|a l] eqn:E, (keyframes_ s') as [|a' l'] eqn:E';
      try discriminate; [reflexivity|].
    rewrite !last_map_time, Ht. reflexivity.
  - unfold sample_interval, interpolation_speed, interpolation_period.
    rewrite Hf, Hv. reflexivity.
Qed.

Lemma same_pose_up_to_sign_times l' l :
  Forall2 same_pose_up_to_sign l' l -> map time_ l' = map time_ l.
Proof.
  induction 1 as [|a b l' l (_ & T & _) _ IH]; [reflexivity|].
  cbn [map]. rewrite T, IH. reflexivity.
Qed.

Section ComputingAgain.
Context {M : MathLib}.

Lemma do_interpolate_sampling fuel s s' keyFrames :
  firstTime s = firstTime s' /\ lastTime s = lastTime s'
  /\ sample_interval s = sample_interval s' ->
  do_interpolate fuel s keyFrames = do_interpolate fuel s' keyFrames.
Proof. intros (H1 & H2 & H3). unfold do_interpolate. rewrite H1, H2, H3. reflexivity. Qed.

Lemma smooth_sampling fuel s s' frames frames' s1 :
  firstTime s = firstTime s' /\ lastTime s = lastTime s'
  /\ sample_interval s = sample_interval s' ->
  smooth fuel s frames = Some (frames', s1) ->
  exists s1', smooth fuel s' frames = Some (frames', s1')
              /\ (s1 = s \/ s1 = emit (LogError "duration is 0") s)
              /\ (s1' = s' \/ s1' = emit (LogError "duration is 0") s').
Proof.
  intros Hs. pose proof Hs as (H1 & H2 & H3). unfold smooth.
  destruct (Nat.ltb (length frames) 2).
  - intros [= <- <-]. eexists. split; [reflexivity|]. split; left; reflexivity.
  - assert (Hr : smooth_ratio s frames = smooth_ratio s' frames).
    { unfold smooth_ratio, duration, as_key_frames_duration, as_key_frames.
      rewrite H1, H2, H3. reflexivity. }
    assert (Hk : as_key_frames s frames = as_key_frames s' frames)
      by (unfold as_key_frames; rewrite H3; reflexivity).
    rewrite <- Hr, <- Hk. destruct (F32.is_nan (smooth_ratio s frames)).
    + intros [= <- <-]. eexists. split; [reflexivity|]. split; right; reflexivity.
    + rewrite <- (do_interpolate_sampling fuel s s' _ Hs).
      destruct (do_interpolate fuel s _) as [[f k]|]; [|discriminate].
      intros [= <- <-]. eexists. split; [reflexivity|]. split; left; reflexivity.
Qed.

(** X10.  Computing the path again gives the same path.  When
    [interpolate()] has computed a path and the path is then marked
    invalid without any other change, as [set_frame_rate] with the same
    rate does, the next [interpolate()] returns too, with the same frames
    and the same key frames. *)
Theorem interpolate_again (fuel : nat) (s s1 : KeyFrameInterpolator) :
  pathIsValid_ s = false ->
  interpolate fuel s = Some s1 ->
  exists s2,
    interpolate fuel (with_pathIsValid false s1) = Some s2
    /\ interpolated_path_ s2 = interpolated_path_ s1
    /\ keyframes_ s2 = keyframes_ s1
    /\ pathIsValid_ s2 = true.
Proof.
  intros Hv H. unfold interpolate in H. rewrite Hv in H.
  set (n := length (keyframes_ s)) in *.
  set (s0 := if Nat.ltb 2 n then emit (LogInfoInterpolating n) s else s) in *.
  assert (K0 : keyframes_ s0 = keyframes_ s) by (unfold s0; destruct (Nat.ltb 2 n); reflexivity).
  assert (F0 : fps_ s0 = fps_ s /\ interpolation_speed_ s0 = interpolation_speed_ s)
    by (unfold s0; destruct (Nat.ltb 2 n); split; reflexivity).
  destruct (do_interpolate fuel s0 (keyframes_ s0)) as [[frames k1]|] eqn:D; [|discriminate].
  set (s3 := if Nat.ltb 2 n then _ else _) in H.
  assert (K3 : keyframes_ s3 = k1 /\ fps_ s3 = fps_ s
               /\ interpolation_speed_ s3 = interpolation_speed_ s
               /\ interpolated_path_ s3 = frames)
    by (unfold s3; destruct (Nat.ltb 2 n); cbn; repeat split; apply F0).
  destruct K3 as (K3 & F3 & V3 & P3). rewrite P3 in H.
  destruct (smooth fuel s3 frames) as [[frames' s4]|] eqn:S; [|discriminate].
  injection H as <-.
  (* the key frames after the first run *)
  assert (Hk1 : updateModifiedFrameValues k1 = (if Nat.eqb (length k1) 0 then None else Some k1)
                /\ map time_ k1 = map time_ (keyframes_ s)
                /\ length k1 = n).
  { unfold do_interpolate in D. rewrite K0 in D.
    destruct (updateModifiedFrameValues (keyframes_ s)) as [k|] eqn:U.
    - destruct (sample_loop _ _ _ _ _); [|discriminate]. injection D as _ <-.
      destruct (updateModifiedFrameValues_fixed _ _ U) as [U1 U2].
      rewrite U1. pose proof (Forall2_length U2) as L. fold n in L.
      split; [|split; [apply same_pose_up_to_sign_times; exact U2|exact L]].
      destruct k; [discriminate U1|reflexivity].
    - injection D as _ <-. destruct (keyframes_ s) eqn:E; [|discriminate U].
      split; [reflexivity|split; reflexivity]. }
  destruct Hk1 as (U1 & T1 & L1).
  (* the second run *)
  set (t := with_pathIsValid false (with_pathIsValid true (with_interpolated_path frames' s4))).
  assert (Ks4 : keyframes_ s4 = k1 /\ fps_ s4 = fps_ s
                /\ interpolation_speed_ s4 = interpolation_speed_ s).
  { destruct (smooth_sampling fuel s3 s3 frames frames' s4 (conj eq_refl (conj eq_refl eq_refl)) S)
      as (_ & _ & [->| ->] & _); cbn; auto. }
  destruct Ks4 as (K4 & F4 & V4).
  unfold interpolate. change (pathIsValid_ t) with false. cbv iota.
  change (keyframes_ t) with (keyframes_ s4). rewrite K4, L1.
  set (t0 := if Nat.ltb 2 n then emit (LogInfoInterpolating n) t else t).
  assert (Kt0 : keyframes_ t0 = k1 /\ fps_ t0 = fps_ s
                /\ interpolation_speed_ t0 = interpolation_speed_ s).
  { unfold t0, t. destruct (Nat.ltb 2 n); cbn; auto. }
  destruct Kt0 as (Kt0 & Ft0 & Vt0).
  assert (St0 : firstTime t0 = firstTime s0 /\ lastTime t0 = lastTime s0
                /\ sample_interval t0 = sample_interval s0).
  { apply sampling_of_times; [rewrite Kt0, K0; exact T1| |];
      destruct F0; congruence. }
  rewrite Kt0.
  assert (D2 : do_interpolate fuel t0 k1 = Some (frames, k1)).
  { rewrite (do_interpolate_sampling fuel t0 s0 k1 St0).
    unfold do_interpolate in D |- *. rewrite K0 in D. rewrite U1.
    destruct (updateModifiedFrameValues (keyframes_ s)) as [k|] eqn:U.
    - destruct (sample_loop fuel (lastTime s0) (sample_interval s0) k (firstTime s0))
        as [fr|] eqn:SL; [|discriminate].
      injection D as <- <-.
      destruct (Nat.eqb_spec (length k) 0) as [Z|Z].
      + destruct k; [|discriminate Z].
        destruct (updateModifiedFrameValues_fixed _ _ U) as [U' _]. discriminate U'.
      + rewrite SL. reflexivity.
    - injection D as <- <-. destruct (keyframes_ s); [reflexivity|discriminate U]. }
  rewrite D2.
  set (t3 := if Nat.ltb 2 n then _ else _).
  assert (Kt3 : keyframes_ t3 = k1 /\ fps_ t3 = fps_ s
                /\ interpolation_speed_ t3 = interpolation_speed_ s
                /\ interpolated_path_ t3 = frames).
  { unfold t3. destruct (Nat.ltb 2 n); cbn; auto. }
  destruct Kt3 as (Kt3 & Ft3 & Vt3 & Pt3). rewrite Pt3.
  assert (St3 : firstTime s3 = firstTime t3 /\ lastTime s3 = lastTime t3
                /\ sample_interval s3 = sample_interval t3).
  { apply sampling_of_times; [rewrite K3, Kt3; reflexivity|congruence|congruence]. }
  destruct (smooth_sampling fuel s3 t3 frames frames' s4 St3 S) as (t4 & S2 & _ & Ht4).
  rewrite S2. eexists. split; [reflexivity|]. cbn.
  split; [reflexivity|]. split; [|reflexivity].
  destruct Ht4 as [->| ->]; cbn; rewrite Kt3; symmetry; exact K4.
Qed.
End ComputingAgain.

Lemma interpolate_again_witness :
  exists s1 s2,
    interpolate (M := example_lib) 10 slow = Some s1
    /\ interpolate (M := example_lib) 10 (with_pathIsValid false s1) = Some s2
    /\ interpolated_path_ s2 = interpolated_path_ s1
    /\ length (interpolated_path_ s1) = 3.
Proof.
  destruct (interpolate (M := example_lib) 10 slow) as [s1|] eqn:E;
    [|vm_compute in E; discriminate].
  destruct (interpolate_again (M := example_lib) 10 slow s1 eq_refl E)
    as (s2 & H1 & H2 & _).
  exists s1, s2. split; [reflexivity|]. split; [exact H1|]. split; [exact H2|].
  vm_compute in E. injection E as <-. reflexivity.
Defined.

(* ================================================================== *)
(** ** A sampling step of zero, and a single key frame *)

Lemma ltb_add_zero_r t x z : F32.is_zero z = true ->
  F32.ltb t (F32.add x z) = F32.ltb t x.
Proof.
  destruct z as [[]|[]| |[] ? ?]; try discriminate; intros _;
    destruct x as [[]|[]| |[] ? ?], t as [[]|[]| |[] ? ?]; reflexivity.
Qed.

Lemma ltb_add_zero_l t x z : F32.is_zero z = true ->
  F32.ltb (F32.add t z) x = F32.ltb t x.
Proof.
  destruct z as [[]|[]| |[] ? ?]; try discriminate; intros _;
    destruct x as [[]|[]| |[] ? ?], t as [[]|[]| |[] ? ?]; reflexivity.
Qed.

Lemma mul_zero_finite a x :
  F32.is_zero a = true -> F32.is_finite x = true -> F32.is_zero (F32.mul a x) = true.
Proof.
  destruct a as [[]|[]| |[] ? ?], x as [[]|[]| |[] ? ?]; try discriminate; reflexivity.
Qed.

Lemma div_zero_finite a x :
  F32.is_zero a = true -> F32.is_zero x = false -> F32.is_nan x = false ->
  F32.is_zero (F32.div a x) = true.
Proof.
  destruct a as [[]|[]| |[] ? ?], x as [[]|[]| |[] ? ?]; try discriminate; reflexivity.
Qed.

(** Every period is a finite float: it lies between -1000 and 1000. *)
Lemma period_finite fps : F32.is_finite (F32.of_Z (Z.quot 1000 fps)) = true.
Proof.
  assert (Hall : forallb (fun k => F32.is_finite (F32.of_Z (Z.of_nat k - 1000)))
                         (seq 0 2001) = true) by (vm_compute; reflexivity).
  assert (Hb : (-1000 <= Z.quot 1000 fps <= 1000)%Z).
  { destruct (Z.eq_dec fps 0) as [->|Hz]; [cbn; lia|].
    destruct (Z_lt_le_dec fps 0).
    - assert (H : Z.quot 1000 fps = (- Z.quot 1000 (- fps))%Z)
        by (rewrite Z.quot_opp_r by lia; lia).
      rewrite H. rewrite Z.quot_div_nonneg by lia.
      assert (0 <= 1000 / - fps <= 1000)%Z; [|lia].
      split; [apply Z.div_pos; lia|]. apply Z.div_le_upper_bound; nia.
    - rewrite Z.quot_div_nonneg by lia.
      split; [transitivity 0%Z; [lia|apply Z.div_pos; lia]|].
      apply Z.div_le_upper_bound; nia. }
  rewrite forallb_forall in Hall.
  specialize (Hall (Z.to_nat (Z.quot 1000 fps + 1000))).
  replace (Z.of_nat (Z.to_nat (Z.quot 1000 fps + 1000)) - 1000)%Z
    with (Z.quot 1000 fps) in Hall by lia.
  apply Hall. apply in_seq. lia.
Qed.

(** With a speed of zero the sampling step is zero. *)
Lemma sample_interval_zero_speed s :
  F32.is_zero (interpolation_speed_ s) = true -> F32.is_zero (sample_interval s) = true.
Proof.
  intros H. unfold sample_interval, interpolation_speed, interpolation_period.
  apply div_zero_finite; [|reflexivity|reflexivity].
  apply mul_zero_finite; [exact H|apply period_finite].
Qed.

Lemma add_zero_finite t z :
  F32.is_finite t = true -> F32.is_zero z = true -> F32.is_finite (F32.add t z) = true.
Proof. apply add_zero_r_finite. Qed.

Section ZeroStep.
Context {M : MathLib}.

Lemma frame_at_time_some time keyFrames : keyFrames <> [] ->
  exists f, frame_at_time time keyFrames = Some f.
Proof.
  intros Hne. unfold frame_at_time.
  destruct (getRelatedKeyFramesForTime time keyFrames) as [[[[r0 r1] r2] r3]|] eqn:E.
  - destruct (computeSpline _ _). eexists; reflexivity.
  - unfold getRelatedKeyFramesForTime in E. destruct keyFrames; [congruence|discriminate].
Qed.

(** A step of zero never leaves the loop of [do_interpolate]. *)
Lemma sample_loop_zero_step last interval keyFrames :
  F32.is_zero interval = true ->
  forall fuel time, F32.ltb time last = true ->
  sample_loop fuel last interval keyFrames time = None.
Proof.
  intros Hz. induction fuel as [|fuel IH]; intros time Hlt; [reflexivity|].
  cbn [sample_loop]. rewrite (ltb_add_zero_r _ _ _ Hz), Hlt.
  rewrite IH by (rewrite (ltb_add_zero_l _ _ _ Hz); exact Hlt).
  destruct (frame_at_time time keyFrames); reflexivity.
Qed.

(** X11.  With a speed of zero the path is never computed: when the first
    time of the track is below the last, [do_interpolate] stays in its
    loop, the time never advancing, and neither [interpolate()] nor
    [start_interpolation()] returns on a path that is not valid. *)
Theorem zero_speed_never_returns (s : KeyFrameInterpolator) :
  F32.is_zero (interpolation_speed_ s) = true ->
  F32.ltb (firstTime s) (lastTime s) = true ->
  forall fuel,
    do_interpolate fuel s (keyframes_ s) = None
    /\ (pathIsValid_ s = false ->
        interpolate fuel s = None /\ start_interpolation fuel s = None).
Proof.
  intros Hv Hlt fuel.
  assert (Hne : keyframes_ s <> []).
  { intros E. unfold firstTime, lastTime in Hlt. rewrite E in Hlt. discriminate. }
  assert (Hz := sample_interval_zero_speed s Hv).
  assert (D : forall s', firstTime s' = firstTime s -> lastTime s' = lastTime s ->
                sample_interval s' = sample_interval s ->
                do_interpolate fuel s' (keyframes_ s) = None).
  { intros s' H1 H2 H3. unfold do_interpolate.
    destruct (updateModifiedFrameValues_some (keyframes_ s) Hne) as (k & -> & _).
    rewrite H1, H2, H3. rewrite sample_loop_zero_step; [reflexivity|exact Hz|exact Hlt]. }
  split; [apply D; reflexivity|]. intros Hp.
  assert (I : interpolate fuel s = None).
  { unfold interpolate. rewrite Hp.
    destruct (Nat.ltb 2 (length (keyframes_ s))).
    - change (keyframes_ (emit _ s)) with (keyframes_ s).
      rewrite D; reflexivity.
    - rewrite D; reflexivity. }
  split; [exact I|]. unfold start_interpolation.
  destruct (keyframes_ s); [congruence|]. rewrite Hp, I. reflexivity.
Qed.

(** X12.  A track of one key frame gives a path of at most one frame:
    [interpolate()] returns after at most two tests of its loop, logs
    nothing, and the frame, if any, is the spline at the time of the key
    frame. *)
Theorem single_key_frame_path (fuel : nat) (s : KeyFrameInterpolator) (k : KeyFrame) :
  keyframes_ s = [k] -> pathIsValid_ s = false ->
  exists s1 k',
    interpolate (S (S fuel)) s = Some s1
    /\ keyframes_ s1 = [k']
    /\ events_ s1 = events_ s
    /\ pathIsValid_ s1 = true
    /\ (interpolated_path_ s1 = []
        \/ exists f, interpolated_path_ s1 = [f]
                     /\ frame_at_time (time_ k) [k'] = Some f).
Proof.
  intros Hk Hp. unfold interpolate. rewrite Hp, Hk. cbn [length Nat.ltb Nat.leb].
  unfold do_interpolate. rewrite Hk.
  destruct (updateModifiedFrameValues_some [k] ltac:(discriminate)) as (k1 & U & L).
  rewrite U. destruct k1 as [|k' [|? ?]]; try discriminate L.
  unfold firstTime, lastTime. rewrite Hk. cbn [last].
  cbn [sample_loop].
  destruct (frame_at_time_some (time_ k) [k'] ltac:(discriminate)) as [f Hf].
  destruct (F32.ltb (time_ k) (F32.add (time_ k) (sample_interval s))).
  - rewrite Hf, ltb_irrefl. unfold smooth. cbn.
    do 2 eexists. split; [reflexivity|]. cbn. repeat split.
    right. exists f. split; [reflexivity|exact Hf].
  - unfold smooth. cbn. do 2 eexists. split; [reflexivity|]. cbn. repeat split.
    left. reflexivity.
Qed.
End ZeroStep.

Lemma zero_speed_never_returns_witness :
  interpolate (M := example_lib) 1000 stalled = None.
Proof.
  assert (H1 : F32.is_zero (interpolation_speed_ stalled) = true)
    by (vm_compute; reflexivity).
  assert (H2 : F32.ltb (firstTime stalled) (lastTime stalled) = true)
    by (vm_compute; reflexivity).
  destruct (zero_speed_never_returns (M := example_lib) stalled H1 H2 1000) as [_ H].
  exact (proj1 (H eq_refl)).
Defined.

Lemma single_key_frame_path_witness :
  exists s1,
    interpolate (M := example_lib) 2
      (add_keyframe KeyFrameInterpolator_new (pose 1 2 3) F32.one) = Some s1
    /\ length (interpolated_path_ s1) = 1.
Proof.
  destruct (single_key_frame_path (M := example_lib) 0
              (add_keyframe KeyFrameInterpolator_new (pose 1 2 3) F32.one)
              (new_KeyFrame (pose 1 2 3) F32.one) eq_refl eq_refl)
    as (s1 & k' & H & _).
  exists s1. split; [exact H|].
  vm_compute in H. injection H as <-. reflexivity.
Defined.

(* ================================================================== *)
(** ** One run of the playback loop *)

Lemma playback_frames_running path : forall id size s,
  stopped_ (timer_ s) = false ->
  (id + Z.of_nat (length path) = size)%Z ->
  let s' := playback_frames path id size s in
  events_ s' = events_ s
               ++ flat_map (fun f => [SetPositionAndOrientation f; FrameInterpolated]) path
  /\ last_stopped_index_ s' = match path with [] => last_stopped_index_ s | _ :: _ => 0%Z end
  /\ timer_ s' = timer_ s
  /\ keyframes_ s' = keyframes_ s
  /\ interpolated_path_ s' = interpolated_path_ s
  /\ pathIsValid_ s' = pathIsValid_ s.
Proof.
  induction path as [|f rest IH]; intros id size s Hs Hsize; cbv zeta.
  - cbn. rewrite app_nil_r. repeat split.
  - cbn [playback_frames]. unfold Timer_is_stopped. rewrite Hs.
    set (s2 := if Z.eqb id (size - 1) then _ else _).
    assert (H2 : events_ s2 = events_ s ++ [SetPositionAndOrientation f]
                 /\ timer_ s2 = timer_ s /\ keyframes_ s2 = keyframes_ s
                 /\ interpolated_path_ s2 = interpolated_path_ s
                 /\ pathIsValid_ s2 = pathIsValid_ s
                 /\ last_stopped_index_ s2
                    = (if Z.eqb id (size - 1) then 0%Z else last_stopped_index_ s))
      by (unfold s2; destruct (Z.eqb id (size - 1)); cbn; repeat split).
    destruct H2 as (E2 & T2 & K2 & P2 & V2 & L2).
    specialize (IH (id + 1)%Z size (emit FrameInterpolated s2)).
    cbv zeta in IH. destruct IH as (E & L & T & K & P & V).
    + cbn. rewrite T2. exact Hs.
    + cbn [length] in Hsize. lia.
    + split; [rewrite E; cbn; rewrite E2, <- !app_assoc; reflexivity|].
      split; [|cbn in *; repeat split; congruence].
      rewrite L. destruct rest as [|g rest']; [|reflexivity].
      cbn. rewrite L2. cbn [length] in Hsize.
      replace (Z.eqb id (size - 1)) with true by (symmetry; apply Z.eqb_eq; lia).
      reflexivity.
Qed.

Lemma sink_writes_app s s' (l : list Event) : events_ s' = events_ s ++ l ->
  sink_writes s'
  = sink_writes s
    ++ flat_map (fun e => match e with SetPositionAndOrientation f => [f] | _ => [] end) l.
Proof. intros H. unfold sink_writes. rewrite H, flat_map_app. reflexivity. Qed.

Lemma sink_writes_of_frames (path : list Frame) :
  flat_map (fun e => match e with SetPositionAndOrientation f => [f] | _ => [] end)
    (flat_map (fun f => [SetPositionAndOrientation f; FrameInterpolated]) path
     ++ [InterpolationStopped]) = path.
Proof.
  induction path as [|f rest IH]; [reflexivity|]. cbn. rewrite IH. reflexivity.
Qed.

(** X13.  A playback loop that no stop interrupts writes to the driven
    frame the frames of the path from the resume index to the end, in
    order and each followed by the signal [frame_interpolated]; then it
    sends [interpolation_stopped] once, the resume index is back at 0 and
    the object is no longer running. *)
Theorem playback_runs_to_end (s : KeyFrameInterpolator) :
  stopped_ (timer_ s) = false ->
  (0 <= last_stopped_index_ s)%Z ->
  Z.to_nat (last_stopped_index_ s) < length (interpolated_path_ s) ->
  let rest := skipn (Z.to_nat (last_stopped_index_ s)) (interpolated_path_ s) in
  let s' := playback_callback s in
  events_ s' = events_ s
               ++ flat_map (fun f => [SetPositionAndOrientation f; FrameInterpolated]) rest
               ++ [InterpolationStopped]
  /\ sink_writes s' = sink_writes s ++ rest
  /\ last_stopped_index_ s' = 0%Z
  /\ interpolation_started_ s' = false
  /\ keyframes_ s' = keyframes_ s
  /\ interpolated_path_ s' = interpolated_path_ s.
Proof.
  intros Hs H0 Hi rest s'.
  pose proof (playback_frames_running rest (last_stopped_index_ s)
                (Z.of_nat (length (interpolated_path_ s))) s Hs) as H.
  cbv zeta in H. destruct H as (E & L & T & K & P & V).
  { unfold rest. rewrite length_skipn. lia. }
  assert (Hrest : rest <> []).
  { intros Hnil. apply (f_equal (@length Frame)) in Hnil. unfold rest in Hnil.
    rewrite length_skipn in Hnil. cbn in Hnil. lia. }
  assert (Ev : events_ s' = events_ s
               ++ flat_map (fun f => [SetPositionAndOrientation f; FrameInterpolated]) rest
               ++ [InterpolationStopped]).
  { unfold s', playback_callback. cbn. fold rest. rewrite E, <- app_assoc. reflexivity. }
  split; [exact Ev|]. split.
  - rewrite (sink_writes_app s s' _ Ev), sink_writes_of_frames. reflexivity.
  - unfold s', playback_callback. cbn. fold rest. rewrite L, K, P.
    destruct rest; [congruence|]. repeat split.
Qed.

Lemma playback_runs_to_end_witness :
  sink_writes (playback_callback playing) = skipn 1 (interpolated_path_ playing)
  /\ last_stopped_index_ (playback_callback playing) = 0%Z.
Proof.
  destruct (playback_runs_to_end playing) as (_ & H1 & H2 & _).
  - vm_compute. reflexivity.
  - vm_compute. discriminate.
  - vm_compute. lia.
  - split; [|exact H2]. rewrite H1. vm_compute. reflexivity.
Defined.

(** X14.  A playback loop that finds the stop flag raised writes nothing;
    it sends [interpolation_stopped], leaves the resume index where it was
    and the object is no longer running.  So is every loop that starts
    after [stop_interpolation()]. *)
Theorem playback_stopped (s : KeyFrameInterpolator) :
  stopped_ (timer_ s) = true ->
  let s' := playback_callback s in
  events_ s' = events_ s ++ [InterpolationStopped]
  /\ sink_writes s' = sink_writes s
  /\ last_stopped_index_ s' = last_stopped_index_ s
  /\ interpolation_started_ s' = false
  /\ interpolated_path_ s' = interpolated_path_ s.
Proof.
  intros Hs s'. unfold s', playback_callback.
  destruct (skipn (Z.to_nat (last_stopped_index_ s)) (interpolated_path_ s)) as [|f rest];
    cbn [playback_frames]; unfold Timer_is_stopped; rewrite ?Hs.
  - split; [reflexivity|]. split; [|repeat split].
    rewrite (sink_writes_app s _ [InterpolationStopped]) by reflexivity.
    cbn. apply app_nil_r.
  - split; [reflexivity|]. split; [|repeat split].
    rewrite (sink_writes_app s _ [InterpolationStopped]) by reflexivity.
    cbn. apply app_nil_r.
Qed.

Lemma playback_stopped_witness :
  sink_writes (playback_callback (stop_interpolation playing)) = []
  /\ last_stopped_index_ (playback_callback (stop_interpolation playing)) = 1%Z.
Proof.
  destruct (playback_stopped (stop_interpolation playing) eq_refl) as (_ & H1 & H2 & _).
  split; [rewrite H1|rewrite H2]; vm_compute; reflexivity.
Defined.

(* ================================================================== *)
(** ** What a load leaves of the track, and what it makes of the file *)

Lemma read_blocks_as_appends file : forall n j ref s,
  read_blocks file n j ref s
  = add_keyframes_auto ref s (map (frame_block file) (seq j n)).
Proof.
  induction n as [|n IH]; intros j ref s; [reflexivity|].
  cbn [read_blocks seq map]. rewrite add_keyframes_auto_cons.
  destruct (add_keyframe_auto ref s (frame_block file j)) as [ref' s'].
  apply IH.
Qed.

(** The key frames after an append with a computed time depend on the key
    frames before, and on the static reference distance only once there
    are two of them. *)
Lemma add_keyframe_auto_depends ref1 ref2 s1 s2 frame :
  keyframes_ s1 = keyframes_ s2 ->
  (2 <= length (keyframes_ s1) -> ref1 = ref2) ->
  keyframes_ (snd (add_keyframe_auto ref1 s1 frame))
  = keyframes_ (snd (add_keyframe_auto ref2 s2 frame))
  /\ (2 <= length (keyframes_ (snd (add_keyframe_auto ref1 s1 frame))) ->
      fst (add_keyframe_auto ref1 s1 frame) = fst (add_keyframe_auto ref2 s2 frame)).
Proof.
  intros Hk Hr. unfold add_keyframe_auto. rewrite <- Hk.
  destruct (keyframes_ s1) as [|k0 [|k1 rest]] eqn:E; cbn [fst snd];
    rewrite !add_keyframe_keyframes, <- Hk, E.
  - split; [reflexivity|]. cbn. lia.
  - split; reflexivity.
  - rewrite (Hr ltac:(simpl; lia)). split; [reflexivity|]. intros _. reflexivity.
Qed.

Lemma add_keyframes_auto_depends frames : forall ref1 ref2 s1 s2,
  keyframes_ s1 = keyframes_ s2 ->
  (2 <= length (keyframes_ s1) -> ref1 = ref2) ->
  keyframes_ (snd (add_keyframes_auto ref1 s1 frames))
  = keyframes_ (snd (add_keyframes_auto ref2 s2 frames)).
Proof.
  induction frames as [|f rest IH]; intros ref1 ref2 s1 s2 Hk Hr; [exact Hk|].
  rewrite !add_keyframes_auto_cons.
  destruct (add_keyframe_auto_depends ref1 ref2 s1 s2 f Hk Hr) as [H1 H2].
  apply IH; assumption.
Qed.

Lemma add_keyframes_auto_length frames : forall ref s,
  length (keyframes_ (snd (add_keyframes_auto ref s frames)))
  <= length (keyframes_ s) + length frames.
Proof.
  induction frames as [|f rest IH]; intros ref s; [cbn; lia|].
  rewrite add_keyframes_auto_cons.
  specialize (IH (fst (add_keyframe_auto ref s f)) (snd (add_keyframe_auto ref s f))).
  destruct (add_keyframe_auto_keyframes ref s f) as [t Ht]. rewrite Ht in IH.
  destruct (rejects _ _); [|rewrite length_app in IH]; cbn [length] in *; lia.
Qed.

(** X15.  A file that can be opened replaces the track: the key frames
    after the load are the same whatever the key frames and the static
    reference distance before.  When the file announces no key frame the
    track is left empty and the load returns false, without logging. *)
Theorem read_keyframes_replaces (fs : FileSystem) (file_name : String.string)
  (file : KeyFrameFile) :
  fs file_name = Some file ->
  (forall ref1 ref2 s1 s2,
      keyframes_ (snd (read_keyframes fs ref1 s1 file_name))
      = keyframes_ (snd (read_keyframes fs ref2 s2 file_name))
      /\ fst (fst (read_keyframes fs ref1 s1 file_name))
         = fst (fst (read_keyframes fs ref2 s2 file_name)))
  /\ ((num_key_frames file <= 0)%Z ->
      forall ref s, read_keyframes fs ref s file_name = (false, ref, delete_path s)).
Proof.
  intros Hf. split.
  - intros ref1 ref2 s1 s2. unfold read_keyframes. rewrite Hf.
    rewrite !read_blocks_as_appends.
    pose proof (add_keyframes_auto_depends
                  (map (frame_block file) (seq 0 (Z.to_nat (num_key_frames file))))
                  ref1 ref2 (delete_path s1) (delete_path s2) eq_refl) as H.
    destruct (add_keyframes_auto ref1 (delete_path s1) _) as [r1 t1].
    destruct (add_keyframes_auto ref2 (delete_path s2) _) as [r2 t2].
    cbn [fst snd] in *. rewrite H by (cbn; lia). split; reflexivity.
  - intros Hn ref s. unfold read_keyframes. rewrite Hf.
    replace (Z.to_nat (num_key_frames file)) with 0 by lia. reflexivity.
Qed.

Lemma read_keyframes_replaces_witness :
  keyframes_ (snd (read_keyframes one_file F32.zero playing "path.kf"))
  = keyframes_ (snd (read_keyframes one_file F32.one KeyFrameInterpolator_new "path.kf")).
Proof.
  apply (read_keyframes_replaces one_file "path.kf"
           (mkKeyFrameFile 2 (fun j => pose (Z.of_nat j) 0 0)) eq_refl).
Defined.

(** X16.  The times of a loaded track are computed, never read: the
    first block of the file becomes the first key frame at the time 0, the
    second block the second key frame at the time 1, every later key
    frame follows the chord rule, and there are at most as many key
    frames as the file announces. *)
Theorem read_keyframes_times (fs : FileSystem) (ref : F32.float)
  (s : KeyFrameInterpolator) (file_name : String.string) (file : KeyFrameFile) :
  fs file_name = Some file ->
  let ks := keyframes_ (snd (read_keyframes fs ref s file_name)) in
  ((0 < num_key_frames file)%Z ->
   nth_error ks 0 = Some (new_KeyFrame (frame_block file 0) F32.zero))
  /\ ((1 < num_key_frames file)%Z ->
      nth_error ks 1 = Some (new_KeyFrame (frame_block file 1) F32.one))
  /\ (forall k0 k1 i a b,
        nth_error ks 0 = Some k0 -> nth_error ks 1 = Some k1 -> 1 <= i ->
        nth_error ks i = Some a -> nth_error ks (S i) = Some b ->
        time_ b = F32.add (time_ a)
                    (F32.div (F32.mul F32.one (distance (p_ a) (p_ b)))
                             (distance (p_ k0) (p_ k1))))
  /\ length ks <= Z.to_nat (num_key_frames file).
Proof.
  intros Hf ks. unfold ks, read_keyframes. rewrite Hf.
  rewrite read_blocks_as_appends.
  set (frames := map (frame_block file) (seq 0 (Z.to_nat (num_key_frames file)))).
  destruct (add_keyframes_auto ref (delete_path s) frames) as [r t] eqn:E.
  cbn [snd].
  assert (Et : t = snd (add_keyframes_auto ref (delete_path s) frames)) by (rewrite E; reflexivity).
  rewrite Et.
  assert (Hinit : auto_times F32.one (keyframes_ (delete_path s))
                  /\ reference_recorded ref (keyframes_ (delete_path s))).
  { split; [apply auto_times_nil|]. intros ? ? H; discriminate. }
  destruct (add_keyframes_auto_invariant frames ref (delete_path s) (proj1 Hinit) (proj2 Hinit))
    as [(_ & _ & Hc) _].
  assert (Hk0 : forall f0, keyframes_ (add_keyframe (delete_path s) f0 F32.zero)
                           = [new_KeyFrame f0 F32.zero])
    by (intros f0; rewrite add_keyframe_keyframes; reflexivity).
  split; [|split; [|split]].
  - intros Hn. assert (Hs : Z.to_nat (num_key_frames file) = S (Nat.pred (Z.to_nat (num_key_frames file)))) by lia.
    unfold frames. rewrite Hs. cbn [seq map]. rewrite add_keyframes_auto_cons.
    apply add_keyframes_auto_prefix.
    change (add_keyframe_auto ref (delete_path s) (frame_block file 0))
      with (ref, add_keyframe (delete_path s) (frame_block file 0) F32.zero).
    cbn [snd]. rewrite Hk0. reflexivity.
  - intros Hn. assert (Hs : Z.to_nat (num_key_frames file) = S (S (Z.to_nat (num_key_frames file) - 2))) by lia.
    unfold frames. rewrite Hs. cbn [seq map]. rewrite !add_keyframes_auto_cons.
    apply add_keyframes_auto_prefix.
    change (add_keyframe_auto ref (delete_path s) (frame_block file 0))
      with (ref, add_keyframe (delete_path s) (frame_block file 0) F32.zero).
    cbn [fst snd]. unfold add_keyframe_auto. rewrite Hk0. cbn [snd].
    rewrite add_keyframe_keyframes, Hk0. reflexivity.
  - intros k0 k1 i a b H0 H1 Hi Ha Hb. exact (Hc k0 k1 i a b H0 H1 Hi Ha Hb).
  - pose proof (add_keyframes_auto_length frames ref (delete_path s)) as L.
    unfold frames in L at 2. rewrite length_map, length_seq in L. exact L.
Qed.

Lemma read_keyframes_times_witness :
  nth_error (keyframes_ (snd (read_keyframes one_file F32.zero playing "path.kf"))) 1
  = Some (new_KeyFrame (pose 1 0 0) F32.one).
Proof.
  apply (read_keyframes_times one_file F32.zero playing "path.kf"
           (mkKeyFrameFile 2 (fun j => pose (Z.of_nat j) 0 0)) eq_refl).
  reflexivity.
Defined.

(* ================================================================== *)
(** ** Smoothing a path that stays in place *)

Lemma mul_any_zero_or_nan a x :
  F32.is_zero x || F32.is_nan x = true ->
  F32.is_zero (F32.mul a x) || F32.is_nan (F32.mul a x) = true.
Proof.
  destruct x as [[]|[]| |[] ? ?]; try discriminate; intros _;
    destruct a as [[]|[]| |[] ? ?]; reflexivity.
Qed.

Lemma div_zero_or_nan_nan x z :
  F32.is_zero x || F32.is_nan x = true -> F32.is_zero z || F32.is_nan z = true ->
  F32.div x z = F32.nan.
Proof.
  destruct x as [[]|[]| |[] ? ?], z as [[]|[]| |[] ? ?]; try discriminate; reflexivity.
Qed.

Lemma add_nan_r x : F32.add x F32.nan = F32.nan.
Proof. destruct x as [[]|[]| |[] ? ?]; reflexivity. Qed.

Lemma sub_nan_l x : F32.sub F32.nan x = F32.nan.
Proof. destruct x as [[]|[]| |[] ? ?]; reflexivity. Qed.

Lemma div_nan_r x : F32.div x F32.nan = F32.nan.
Proof. destruct x as [[]|[]| |[] ? ?]; reflexivity. Qed.

(** Once two key frames are made and the reference distance is zero or a
    NaN, every further frame at the position of the last key frame gets a
    NaN for its time. *)
Lemma as_key_frames_loop_in_place interval p frames : forall acc ref,
  frames <> [] -> 2 <= length acc ->
  (forall f, In f frames -> position f = p) ->
  p_ (last acc KeyFrame_default) = p ->
  F32.is_zero ref || F32.is_nan ref = true ->
  time_ (last (as_key_frames_loop interval frames acc ref) KeyFrame_default) = F32.nan
  /\ as_key_frames_loop interval frames acc ref <> []
  /\ hd KeyFrame_default (as_key_frames_loop interval frames acc ref)
     = hd KeyFrame_default acc.
Proof.
  induction frames as [|f rest IH]; intros acc ref Hne Hlen Hall Hp Hr; [congruence|].
  cbn [as_key_frames_loop].
  destruct acc as [|k0 [|k1 acc']]; [cbn in Hlen; lia|cbn in Hlen; lia|].
  set (ks := k0 :: k1 :: acc') in *.
  assert (Hf : position f = p) by (apply Hall; left; reflexivity).
  assert (Ht : F32.add (time_ (last ks KeyFrame_default))
                 (F32.div (F32.mul interval
                             (distance (p_ (last ks KeyFrame_default)) (position f))) ref)
               = F32.nan).
  { rewrite Hp, Hf, (div_zero_or_nan_nan _ ref); [apply add_nan_r| |exact Hr].
    apply mul_any_zero_or_nan. apply distance_self. }
  rewrite Ht.
  destruct rest as [|g rest'].
  - cbn [as_key_frames_loop]. rewrite last_last. split; [reflexivity|].
    split; [destruct ks; discriminate|reflexivity].
  - destruct (IH (ks ++ [new_KeyFrame f F32.nan]) ref) as (H1 & H2 & H3).
    + discriminate.
    + rewrite length_app. cbn [length]. lia.
    + intros f' Hin. apply Hall. right. exact Hin.
    + rewrite last_last. exact Hf.
    + exact Hr.
    + split; [exact H1|]. split; [exact H2|]. rewrite H3. reflexivity.
Qed.

Section InPlace.
Context {M : MathLib}.

(** X17.  A path of three frames or more that stays at one position is
    never smoothed: the reference distance between its first two frames is
    zero, the time of the third key frame made of it is 0 / 0, the ratio
    is a NaN, and [smooth] logs "duration is 0" and leaves the frames as
    they are, whatever the speed, the frame rate and the track. *)
Theorem smooth_in_place (fuel : nat) (s : KeyFrameInterpolator)
  (frames : list Frame) (p : vec3) :
  3 <= length frames ->
  (forall f, In f frames -> position f = p) ->
  smooth fuel s frames = Some (frames, emit (LogError "duration is 0") s).
Proof.
  intros Hlen Hall.
  destruct frames as [|f0 [|f1 [|f2 rest]]]; try (cbn in Hlen; lia).
  assert (Hnan : F32.is_nan (smooth_ratio s (f0 :: f1 :: f2 :: rest)) = true).
  { unfold smooth_ratio, as_key_frames_duration, as_key_frames.
    change (as_key_frames_loop (sample_interval s) (f0 :: f1 :: f2 :: rest) [] F32.zero)
      with (as_key_frames_loop (sample_interval s) (f2 :: rest)
              [new_KeyFrame f0 F32.zero; new_KeyFrame f1 (sample_interval s)]
              (distance (p_ (new_KeyFrame f0 F32.zero)) (position f1))).
    destruct (as_key_frames_loop_in_place (sample_interval s) p (f2 :: rest)
                [new_KeyFrame f0 F32.zero; new_KeyFrame f1 (sample_interval s)]
                (distance (p_ (new_KeyFrame f0 F32.zero)) (position f1)))
      as (H1 & _ & _).
    - discriminate.
    - cbn; lia.
    - intros f Hin. apply Hall. right. right. exact Hin.
    - cbn. apply Hall. right. left. reflexivity.
    - cbn [new_KeyFrame p_]. rewrite (Hall f0), (Hall f1); [apply distance_self| |];
        cbn; auto.
    - rewrite H1, sub_nan_l, div_nan_r. reflexivity. }
  unfold smooth. change (Nat.ltb (length (f0 :: f1 :: f2 :: rest)) 2) with false.
  cbv iota. rewrite Hnan. reflexivity.
Qed.
End InPlace.

Lemma smooth_in_place_witness :
  smooth (M := example_lib) 0 slow [pose 1 1 1; pose 1 1 1; pose 1 1 1]
  = Some ([pose 1 1 1; pose 1 1 1; pose 1 1 1], emit (LogError "duration is 0") slow).
Proof.
  apply (smooth_in_place (M := example_lib) 0 slow _ (point 1 1 1)).
  - cbn. lia.
  - intros f [<-|[<-|[<-|[]]]]; reflexivity.
Defined.

(* ================================================================== *)
(** ** Saving key frames *)

Lemma save_frames_length keyFrames : forall id,
  length (save_frames id keyFrames) = 3 * length keyFrames.
Proof.
  induction keyFrames as [|kf rest IH]; intros id; [reflexivity|].
  cbn [save_frames length]. rewrite IH. lia.
Qed.

Lemma save_frames_nth keyFrames : forall id i kf,
  nth_error keyFrames i = Some kf ->
  nth_error (save_frames id keyFrames) (3 * i) = Some (FrameLine (id + i))
  /\ nth_error (save_frames id keyFrames) (3 * i + 1) = Some (PositionLine (p_ kf))
  /\ nth_error (save_frames id keyFrames) (3 * i + 2) = Some (OrientationLine (q_ kf)).
Proof.
  induction keyFrames as [|k rest IH]; intros id i kf H; [destruct i; discriminate|].
  destruct i as [|i].
  - cbn in H. injection H as <-. cbn. rewrite Nat.add_0_r. repeat split.
  - cbn [nth_error] in H. destruct (IH (S id) i kf H) as (H1 & H2 & H3).
    replace (3 * S i) with (S (S (S (3 * i)))) by lia.
    cbn [save_frames Nat.add nth_error].
    replace (id + S i) with (S id + i) by lia. auto.
Qed.

Lemma save_frames_poses k1 k2 : forall id,
  map p_ k1 = map p_ k2 -> map q_ k1 = map q_ k2 ->
  save_frames id k1 = save_frames id k2.
Proof.
  revert k2. induction k1 as [|a r1 IH]; intros [|b r2] id Hp Hq; try discriminate;
    [reflexivity|].
  cbn [map] in Hp, Hq. injection Hp as Hp Hp'. injection Hq as Hq Hq'.
  cbn [save_frames]. rewrite Hp, Hq, (IH r2 (S id) Hp' Hq'). reflexivity.
Qed.

(** X18.  [save_keyframes] writes, when the file can be opened, the
    number of key frames and then for each key frame, in order, its
    index, its position and its orientation; neither times nor tangents
    are written, so that two tracks with the same poses give the same
    lines.  The value returned is true exactly when the track is not
    empty: an empty track writes its header and still returns false.  When
    the file cannot be opened nothing is written and the error is
    logged. *)
Theorem save_keyframes_lines (can_open : String.string -> bool)
  (s : KeyFrameInterpolator) (file_name : String.string) :
  (can_open file_name = true ->
   exists lines,
     save_keyframes can_open s file_name
     = (negb (Nat.eqb (length (keyframes_ s)) 0),
        Some (NumKeyFramesLine (length (keyframes_ s)) :: lines), s)
     /\ length lines = 3 * length (keyframes_ s)
     /\ (forall i kf, nth_error (keyframes_ s) i = Some kf ->
           nth_error lines (3 * i) = Some (FrameLine i)
           /\ nth_error lines (3 * i + 1) = Some (PositionLine (p_ kf))
           /\ nth_error lines (3 * i + 2) = Some (OrientationLine (q_ kf)))
     /\ (forall s', map p_ (keyframes_ s') = map p_ (keyframes_ s) ->
           map q_ (keyframes_ s') = map q_ (keyframes_ s) ->
           snd (fst (save_keyframes can_open s' file_name))
           = Some (NumKeyFramesLine (length (keyframes_ s)) :: lines)))
  /\ (can_open file_name = false ->
      save_keyframes can_open s file_name
      = (false, None,
         emit (LogError (String.append "unable to open '" (String.append file_name "'"))) s)).
Proof.
  unfold save_keyframes. destruct (can_open file_name).
  - split; [|discriminate]. intros _. eexists. split; [reflexivity|].
    split; [apply save_frames_length|]. split.
    + intros i kf H. exact (save_frames_nth _ 0 i kf H).
    + intros s' Hp Hq. cbn [fst snd].
      rewrite (save_frames_poses _ _ 0 Hp Hq).
      apply (f_equal (@length vec3)) in Hp. rewrite !length_map in Hp. rewrite Hp.
      reflexivity.
  - split; [discriminate|]. intros _. reflexivity.
Qed.

(* ================================================================== *)
(** ** The sign of a sum, and sums that are not zero *)














Lemma of_sign_not_zero b x : of_sign b x -> F32.is_zero x = false.
Proof. destruct x; cbn; tauto. Qed.









(* ================================================================== *)
(** ** C2: a zero duration of the track made by [smooth] *)




Section C2.
Context {M : MathLib}.


End C2.


(* ================================================================== *)
(** ** Computed times when one object is filled *)





